(** * KVStorage: a key-value store with per-key time-to-live

    Shallow embedding of [KVStorage.cpp] (class [KVStorage<Clock>]) and
    the properties of its specification.

    Modelling choices, all read off the source:
    - [uint64_t] and [uint32_t] values are [Z]; the conversions
      [static_cast<uint64_t>(...)] and the 64-bit addition of
      [getDeathTime_] have their wrap-around written out ([to_uint64]).
    - [std::map<std::string, timedKVMember, std::less<>>] is a
      [gmap string timedKVMember.t]; its iteration order (ascending keys
      under [std::less<>]) is [map_in_order].  [operator[]] inserts a
      value-initialised member when the key is missing ([map_subscript]).
    - [std::set<timedSetMember, timedSetComparator>] is a
      [gset timedSetMember.t]; [begin], [find] and [emplace] go through
      the comparator ([set_in_order], [set_find], [set_emplace]).
    - Methods are state passing: a method takes the object and returns
      the object after the call (with the result, if any).  [clock_()] is
      a [const] call; the argument [clk] of a method is the value it
      returns during that call, and every method reads it at most once.
      The constructor calls [set] once per entry and each of these
      calls reads the clock itself, so the constructor takes the values
      of all these readings: [clock_ i] is the value [clock_()] returns
      during the [set] of entry number [i].
    - The diagnostics [set] prints on [std::cout] are not modelled. *)

From Stdlib Require Import ZArith Lia.
From stdpp Require Import gmap strings list sorting fin_maps fin_sets.

Local Open Scope Z_scope.
#[local] Set Warnings "-clear-no-such-hyp".

(** ** Machine integers *)

Definition to_uint64 (x : Z) : Z := x mod 2 ^ 64.

Definition is_uint64 (x : Z) : Prop := 0 <= x < 2 ^ 64.
Definition is_uint32 (x : Z) : Prop := 0 <= x < 2 ^ 32.

(** [uint64_t maxTime_ = std::numeric_limits<uint64_t>::max()] *)
Definition maxTime_ : Z := 2 ^ 64 - 1.

(** ** The two member structs *)

Module timedSetMember.
Record t := mk { map_key : string; death_time : Z }.

#[global] Instance eq_dec : EqDecision t.
Proof. solve_decision. Defined.

#[global] Instance countable : Countable t.
Proof.
  apply (inj_countable' (λ m, (map_key m, death_time m))
                        (λ p, mk p.1 p.2)).
  by intros [].
Defined.
End timedSetMember.

Module timedKVMember.
Record t := mk { value : string; death_time : Z }.

(** [timedKVMember{}]: empty string, [death_time{}] is zero. *)
Definition value_initialized : t := mk "" 0.
End timedKVMember.

(** [timedSetComparator::operator()] *)
Definition timedSetComparator (lhs rhs : timedSetMember.t) : bool :=
  (timedSetMember.death_time lhs <? timedSetMember.death_time rhs)
  || ((timedSetMember.death_time lhs =? timedSetMember.death_time rhs)
      && String.ltb (timedSetMember.map_key lhs) (timedSetMember.map_key rhs)).

(** ** The standard containers, as far as the class uses them *)

(** Ascending order of a strict comparator [lt]: [x] may come before [y]
    when [y] is not less than [x]. *)
Definition not_after {A} (lt : A → A → bool) : relation A :=
  λ x y, lt y x = false.

#[global] Instance not_after_dec {A} (lt : A → A → bool) :
  RelDecision (not_after lt).
Proof. intros x y. unfold not_after. apply _. Defined.

(** Iteration over the [std::map] from [begin()] to [end()]. *)
Definition less_key {V} (a b : string * V) : bool := String.ltb a.1 b.1.

Definition map_in_order {V} (m : gmap string V) : list (string * V) :=
  merge_sort (not_after less_key) (map_to_list m).

(** [m[key]]: a reference to the member under [key]; a missing key is
    inserted with a value-initialised member first. *)
Definition map_subscript (m : gmap string timedKVMember.t) (key : string)
  : timedKVMember.t * gmap string timedKVMember.t :=
  match m !! key with
  | Some member => (member, m)
  | None => (timedKVMember.value_initialized,
             <[key := timedKVMember.value_initialized]> m)
  end.

(** Iteration over the [std::set] from [begin()] to [end()]. *)
Definition set_in_order (s : gset timedSetMember.t) : list timedSetMember.t :=
  merge_sort (not_after timedSetComparator) (elements s).

Definition set_begin (s : gset timedSetMember.t) : option timedSetMember.t :=
  head (set_in_order s).

(** Two members are equivalent for the set when neither is less. *)
Definition equivalent (a b : timedSetMember.t) : bool :=
  negb (timedSetComparator a b) && negb (timedSetComparator b a).

(** [s.find(x)]: the member of [s] equivalent to [x], if any. *)
Definition set_find (x : timedSetMember.t) (s : gset timedSetMember.t)
  : option timedSetMember.t :=
  head (filter (λ e, equivalent e x = true) (set_in_order s)).

(** [s.erase(it)] *)
Definition set_erase (it : timedSetMember.t) (s : gset timedSetMember.t)
  : gset timedSetMember.t :=
  s ∖ {[ it ]}.

(** [s.emplace(...)]: no insertion when an equivalent member is there. *)
Definition set_emplace (x : timedSetMember.t) (s : gset timedSetMember.t)
  : gset timedSetMember.t :=
  match set_find x s with
  | Some _ => s
  | None => {[ x ]} ∪ s
  end.

(** ** The class *)

Module KVStorage.

(** The two containers of the object.  The member [maxTime_] is never
    assigned and is the constant above; the member [clock_] is read
    through the argument [clk] of the methods. *)
Record t := mk {
  kv_map_ : gmap string timedKVMember.t;
  expiration_set_ : gset timedSetMember.t
}.

(** Both containers are empty when the constructor body starts. *)
Definition empty : t := mk ∅ ∅.

(** [kv_map_.contains(key)] *)
Definition mapContains (self : t) (key : string) : bool :=
  bool_decide (is_Some (kv_map_ self !! key)).

(** The sentinel for ttl 0; else ttl and the clock, each converted to
    [uint64_t], added in 64 bits. *)
Definition getDeathTime_ (ttl clk : Z) : Z :=
  if ttl =? 0 then maxTime_
  else to_uint64 (to_uint64 ttl + to_uint64 clk).

(** Looks the pair of [key] and [kv_map_[key].death_time] up in the
    set and erases it if it is there. *)
Definition tryToRemoveFromSet (self : t) (key : string) : t :=
  let '(member, m) := map_subscript (kv_map_ self) key in
  let tmp := timedSetMember.mk key (timedKVMember.death_time member) in
  match set_find tmp (expiration_set_ self) with
  | Some it => mk m (set_erase it (expiration_set_ self))
  | None => mk m (expiration_set_ self)
  end.

(** [kv_map_[key] = timedKVMember{value, dt}] inserts the member or
    overwrites the one under [key]. *)
Definition set (self : t) (key value : string) (ttl clk : Z) : t :=
  let self1 :=
    if mapContains self key then tryToRemoveFromSet self key else self in
  let dt := getDeathTime_ ttl clk in
  let self2 :=
    if negb (ttl =? 0)
    then mk (kv_map_ self1)
            (set_emplace (timedSetMember.mk key dt) (expiration_set_ self1))
    else self1 in
  mk (<[key := timedKVMember.mk value dt]> (kv_map_ self2))
     (expiration_set_ self2).

(** The result and the object after the call. *)
Definition remove (self : t) (key : string) : bool * t :=
  if negb (mapContains self key) then (false, self)
  else
    let self1 := tryToRemoveFromSet self key in
    (true, mk (delete key (kv_map_ self1)) (expiration_set_ self1)).

(** A key of the map is available when its pair is not in the set, or
    is in the set with a death time after [now]. *)
Definition keyAvailable (self : t) (key : string) (clk : Z) : bool * t :=
  let now := to_uint64 clk in
  if negb (mapContains self key) then (false, self)
  else
    let '(member, m) := map_subscript (kv_map_ self) key in
    let tmp := timedSetMember.mk key (timedKVMember.death_time member) in
    match set_find tmp (expiration_set_ self) with
    | Some it =>
        (now <? timedSetMember.death_time it, mk m (expiration_set_ self))
    | None => (true, mk m (expiration_set_ self))
    end.

(** [std::nullopt] is [None]. *)
Definition get (self : t) (key : string) (clk : Z) : option string * t :=
  let '(available, self1) := keyAvailable self key clk in
  if negb available then (None, self1)
  else
    let '(member, m) := map_subscript (kv_map_ self1) key in
    (Some (timedKVMember.value member), mk m (expiration_set_ self1)).

(** The [for] loop of [getManySorted] over the remaining iterators:
    [its] is what is left from [it] to [end()], [count] and [result] are
    the two variables the body updates. *)
Fixpoint getManySorted_loop (its : list (string * timedKVMember.t))
    (key : string) (count now : Z) (result : list (string * string))
  : list (string * string) :=
  match its with
  | [] => result
  | it :: rest =>
      if 0 <? count then
        if timedKVMember.death_time it.2 <=? now
        then getManySorted_loop rest key count now result
        else if negb (String.ltb it.1 key)
             then getManySorted_loop rest key (count - 1) now
                    (result ++ [(it.1, timedKVMember.value it.2)])
             else getManySorted_loop rest key count now result
      else result
  end.

(** The early return on [count == 0], then the loop from [begin()]. *)
Definition getManySorted (self : t) (key : string) (count clk : Z)
  : list (string * string) * t :=
  if count =? 0 then ([], self)
  else
    let now := to_uint64 clk in
    (getManySorted_loop (map_in_order (kv_map_ self)) key count now [],
     self).

(** [set_begin] is [None] when [expiration_set_.empty()]. *)
Definition removeOneExpiredEntry (self : t) (clk : Z)
  : option (string * string) * t :=
  let now := to_uint64 clk in
  match set_begin (expiration_set_ self) with
  | None => (None, self)
  | Some first =>
      if now <? timedSetMember.death_time first then (None, self)
      else
        let key := timedSetMember.map_key first in
        let '(member, m) := map_subscript (kv_map_ self) key in
        let removed := (key, timedKVMember.value member) in
        let '(_, self1) := remove (mk m (expiration_set_ self)) key in
        (Some removed, self1)
  end.

(** The constructor: [set] on every entry, in the order of the span.
    Every [set] reads the clock itself (when its ttl is not 0):
    [clock_ i] is the value [clock_()] returns during the [set] of entry
    number [i], and the loop carries the number of the entry it is
    at. *)
Definition KVStorage (entries : list (string * string * Z)) (clock_ : nat → Z)
  : t :=
  (foldl (λ '(self, i) '(key, value, ttl),
            (set self key value ttl (clock_ i), S i))
         (empty, 0%nat) entries).1.

End KVStorage.

(** * Calls from a client *)

(** One call of a public method. *)
Inductive operation :=
| op_set (key value : string) (ttl : Z)
| op_remove (key : string)
| op_get (key : string)
| op_getManySorted (key : string) (count : Z)
| op_removeOneExpiredEntry.

(** The store after the call [o], made when the clock reads [clk]. *)
Definition run (o : operation) (clk : Z) (self : KVStorage.t) : KVStorage.t :=
  match o with
  | op_set key value ttl => KVStorage.set self key value ttl clk
  | op_remove key => (KVStorage.remove self key).2
  | op_get key => (KVStorage.get self key clk).2
  | op_getManySorted key count => (KVStorage.getManySorted self key count clk).2
  | op_removeOneExpiredEntry => (KVStorage.removeOneExpiredEntry self clk).2
  end.

(** A sequence of calls, each with the clock reading it sees. *)
Definition run_all (calls : list (operation * Z)) (self : KVStorage.t)
  : KVStorage.t :=
  foldl (λ s '(o, clk), run o clk s) self calls.

(** The calls that write [key]: [set] and [remove] on it. *)
Definition writes (key : string) (o : operation) : Prop :=
  match o with
  | op_set k _ _ => k = key
  | op_remove k => k = key
  | _ => False
  end.

(** The calls that store [key]: [set] on it. *)
Definition sets (key : string) (o : operation) : Prop :=
  match o with
  | op_set k _ _ => k = key
  | _ => False
  end.

(** The calls that only read: [get] and [getManySorted]. *)
Definition reads (o : operation) : Prop :=
  match o with
  | op_get _ | op_getManySorted _ _ => True
  | _ => False
  end.

(** * The consistency of the two structures *)

(** The invariant as the specification words it: a key of the primary
    map with a finite death time [t] on one side, the pair of [t] and the
    key in the expiration index on the other. *)
Definition I1 (self : KVStorage.t) : Prop :=
  ∀ k t,
    ((∃ v, KVStorage.kv_map_ self !! k = Some (timedKVMember.mk v t))
     ∧ t ≠ maxTime_)
    ↔ timedSetMember.mk k t ∈ KVStorage.expiration_set_ self.

(** At most one pair per key in the expiration index. *)
Definition I2 (self : KVStorage.t) : Prop :=
  ∀ e1 e2,
    e1 ∈ KVStorage.expiration_set_ self →
    e2 ∈ KVStorage.expiration_set_ self →
    timedSetMember.map_key e1 = timedSetMember.map_key e2 → e1 = e2.

(** Every pair of the index names a key of the map, with the death time
    the map records for it. *)
Definition index_in_map (self : KVStorage.t) : Prop :=
  ∀ e, e ∈ KVStorage.expiration_set_ self →
    ∃ v, KVStorage.kv_map_ self !! timedSetMember.map_key e
         = Some (timedKVMember.mk v (timedSetMember.death_time e)).

(** Every key of the map whose death time is not the sentinel has its
    pair in the index. *)
Definition finite_in_index (self : KVStorage.t) : Prop :=
  ∀ k member, KVStorage.kv_map_ self !! k = Some member →
    timedKVMember.death_time member ≠ maxTime_ →
    timedSetMember.mk k (timedKVMember.death_time member)
      ∈ KVStorage.expiration_set_ self.

(** What the code maintains between calls. *)
Definition consistent (self : KVStorage.t) : Prop :=
  index_in_map self ∧ finite_in_index self ∧ I2 self.

(** The expiration set [set] and [remove] work on after the stale pair
    of [key] is gone. *)
Definition without_key (self : KVStorage.t) (key : string)
  : gset timedSetMember.t :=
  match KVStorage.kv_map_ self !! key with
  | Some member =>
      set_erase (timedSetMember.mk key (timedKVMember.death_time member))
                (KVStorage.expiration_set_ self)
  | None => KVStorage.expiration_set_ self
  end.

(** * Availability *)

(** A key stored under the sentinel with no pair in the expiration
    index. *)
Definition immortal (self : KVStorage.t) (key value : string) : Prop :=
  KVStorage.kv_map_ self !! key = Some (timedKVMember.mk value maxTime_)
  ∧ ∀ e, e ∈ KVStorage.expiration_set_ self → timedSetMember.map_key e ≠ key.

(** The rule of [get] as the specification words it: the stored value,
    exactly when the key is in the map with a death time strictly after
    the current time. *)
Definition available_iff_strictly_later (self : KVStorage.t) (key : string)
    (clk : Z) : Prop :=
  ∀ v, (KVStorage.get self key clk).1 = Some v ↔
    ∃ member,
      KVStorage.kv_map_ self !! key = Some member
      ∧ timedKVMember.value member = v
      ∧ to_uint64 clk < timedKVMember.death_time member.

(** A key stored with a death time and with its pair in the index. *)
Definition mortal (self : KVStorage.t) (key value : string) (death : Z)
  : Prop :=
  KVStorage.kv_map_ self !! key = Some (timedKVMember.mk value death)
  ∧ timedSetMember.mk key death ∈ KVStorage.expiration_set_ self.

(** A call that, if it is an eviction, reads a time before [death]. *)
Definition evicts_before (death : Z) (call : operation * Z) : Prop :=
  call.1 = op_removeOneExpiredEntry → to_uint64 call.2 < death.

(** * What getManySorted selects *)

(** Strictly ascending keys. *)
Definition key_lt {V} (a b : string * V) : Prop := String.ltb a.1 b.1 = true.

(** The test the loop body makes on an entry. *)
Definition scan_match (key : string) (now : Z) (it : string * timedKVMember.t)
  : bool :=
  negb (timedKVMember.death_time it.2 <=? now) && negb (String.ltb it.1 key).

(** The pair the loop body appends for an entry. *)
Definition scan_entry (it : string * timedKVMember.t) : string * string :=
  (it.1, timedKVMember.value it.2).

(** * Repeated eviction *)

(** Calls of [removeOneExpiredEntry] at one clock reading, one after the
    other, until a call returns nothing or [n] calls have returned an
    entry; the entries returned, in the order of the calls. *)
Fixpoint drain (n : nat) (self : KVStorage.t) (clk : Z)
  : list (string * string) * KVStorage.t :=
  match n with
  | O => ([], self)
  | S n' =>
      match KVStorage.removeOneExpiredEntry self clk with
      | (None, self1) => ([], self1)
      | (Some entry, self1) =>
          let '(entries, self2) := drain n' self1 clk in
          (entry :: entries, self2)
      end
  end.

(** The order of the index on its pairs: death time first, key second. *)
Definition index_le (a b : timedSetMember.t) : Prop :=
  timedSetMember.death_time a < timedSetMember.death_time b
  ∨ (timedSetMember.death_time a = timedSetMember.death_time b
     ∧ String.le (timedSetMember.map_key a) (timedSetMember.map_key b)).

(** The smallest pair of an index. *)
Definition is_minimum (first : timedSetMember.t) (index : gset timedSetMember.t)
  : Prop :=
  first ∈ index ∧ ∀ e, e ∈ index → index_le first e.

(** The key of a pair with the value the primary map has for it. *)
Definition evicted_entry (m : gmap string timedKVMember.t)
    (e : timedSetMember.t) : string * string :=
  (timedSetMember.map_key e,
   from_option timedKVMember.value ""%string (m !! timedSetMember.map_key e)).

(** * Construction, in the words of the specification *)

(** The words of the specification: start from a store (the empty one
    for the constructor) and apply [set] to each triple, in input order;
    the [set] of the triple number [i] is made at the time [clock_ i],
    and [i] is the number of the first triple of [entries]. *)
Fixpoint apply_sets_in_order (entries : list (string * string * Z))
    (clock_ : nat → Z) (i : nat) (store : KVStorage.t) : KVStorage.t :=
  match entries with
  | [] => store
  | (key, value, ttl) :: rest =>
      apply_sets_in_order rest clock_ (S i)
        (KVStorage.set store key value ttl (clock_ i))
  end.

(** The same, as the calls a client would make: one [set] per triple,
    each with the value the clock has at its turn. *)
Definition set_calls (entries : list (string * string * Z)) (clock_ : nat → Z)
  : list (operation * Z) :=
  imap (λ i '(key, value, ttl), (op_set key value ttl, clock_ i)) entries.

(** The key of an input triple. *)
Definition entry_key (entry : string * string * Z) : string := entry.1.1.

(** * The fake clock of [tests.cpp] *)

(** [FakeTimeManager]: the time the tests move by hand. *)
Module FakeTimeManager.

Record t := mk { time : Z }.

(** [uint64_t time = 0] *)
Definition initial : t := mk 0.

(** [time += seconds], in 64 bits. *)
Definition advance (self : t) (seconds : Z) : t :=
  mk (to_uint64 (time self + seconds)).

(** [time = t]; the argument [t] of the source is [t'] here. *)
Definition set (self : t) (t' : Z) : t := mk t'.

Definition get (self : t) : Z := time self.

End FakeTimeManager.

(** [FakeClock] holds a pointer to the manager of the test and reads it
    at every call; the manager a call sees is its argument. *)
Module FakeClock.

(** [operator()] *)
Definition call (timePtr_ : FakeTimeManager.t) : Z :=
  FakeTimeManager.get timePtr_.

End FakeClock.

(** * The unit tests of [tests.cpp], run on the model *)

(** Each test is replayed call by call; the last argument of a call is
    the value of the fake clock at that point of the test. *)

Example test_SetGetRemove :
  let s0 := KVStorage.KVStorage [("a", "1", 0); ("b", "2", 0)] (λ _, 0) in
  (KVStorage.get s0 "a" 0).1 = Some "1"%string ∧
  (KVStorage.get s0 "b" 0).1 = Some "2"%string ∧
  (KVStorage.get s0 "c" 0).1 = None ∧
  let s1 := KVStorage.set s0 "c" "3" 0 0 in
  (KVStorage.get s1 "c" 0).1 = Some "3"%string ∧
  let s2 := KVStorage.set s1 "a" "10" 0 0 in
  (KVStorage.get s2 "a" 0).1 = Some "10"%string ∧
  let r3 := KVStorage.remove s2 "b" in
  r3.1 = true ∧
  (KVStorage.get r3.2 "b" 0).1 = None ∧
  (KVStorage.remove r3.2 "b").1 = false ∧
  let s4 := KVStorage.set r3.2 "b" "ebra" 0 0 in
  (KVStorage.get s4 "b" 0).1 = Some "ebra"%string ∧
  let r5 := KVStorage.remove s4 "b" in
  r5.1 = true ∧
  (KVStorage.get r5.2 "b" 0).1 = None ∧
  (KVStorage.remove r5.2 "b").1 = false ∧
  (KVStorage.removeOneExpiredEntry r5.2 0).1 = None.
Proof. vm_compute. repeat split. Qed.

Example test_GetManySorted :
  let s0 := KVStorage.KVStorage
              [("a", "1", 0); ("b", "2", 0); ("d", "4", 0);
               ("e", "5", 0); ("x", "j9", 0)] (λ _, 0) in
  (KVStorage.getManySorted s0 "c" 2 0).1 = [("d", "4"); ("e", "5")]%string ∧
  (KVStorage.getManySorted s0 "e" 3 0).1 = [("e", "5"); ("x", "j9")]%string ∧
  (KVStorage.getManySorted s0 "a" 1 0).1 = [("a", "1")]%string ∧
  (KVStorage.getManySorted s0 "z" 10 0).1 = [] ∧
  (KVStorage.getManySorted s0 "a" 0 0).1 = [].
Proof. vm_compute. repeat split. Qed.

Example test_TTL :
  let s0 := KVStorage.KVStorage [("a", "1", 5); ("b", "2", 0)] (λ _, 0) in
  (∃ v, (KVStorage.get s0 "a" 0).1 = Some v) ∧
  (∃ v, (KVStorage.get s0 "b" 0).1 = Some v) ∧
  let r1 := KVStorage.removeOneExpiredEntry s0 5 in
  r1.1 = Some ("a", "1")%string ∧
  (KVStorage.get r1.2 "a" 5).1 = None ∧
  (∃ v, (KVStorage.get r1.2 "b" 5).1 = Some v) ∧
  let s2 := KVStorage.set r1.2 "b" "тагилла" 5 5 in
  let r3 := KVStorage.removeOneExpiredEntry s2 11 in
  r3.1 = Some ("b", "тагилла")%string ∧
  (KVStorage.get r3.2 "b" 11).1 = None ∧
  (KVStorage.removeOneExpiredEntry r3.2 11).1 = None.
Proof. vm_compute. repeat split; by eexists. Qed.

Example test_TTLWithQueue :
  let s0 := KVStorage.KVStorage
              [("a", "1", 2); ("b", "2", 0); ("d", "4", 3);
               ("e", "5", 1); ("x", "j9", 2)] (λ _, 0) in
  (KVStorage.getManySorted s0 "c" 3 5).1 = [] ∧
  (KVStorage.getManySorted s0 "c" 3 1).1
    = [("d", "4"); ("x", "j9")]%string ∧
  (KVStorage.getManySorted s0 "c" 3 2).1 = [("d", "4")]%string.
Proof. vm_compute. repeat split. Qed.

Example test_TTLComparatorTest :
  let s0 := KVStorage.KVStorage
              [("a", "gm", 2); ("b", "gm", 2); ("c", "gm", 2)] (λ _, 0) in
  length (KVStorage.getManySorted s0 "a" 3 0).1 = 3%nat ∧
  (KVStorage.getManySorted s0 "a" 3 2).1 = [] ∧
  let r1 := KVStorage.removeOneExpiredEntry s0 2 in
  r1.1 = Some ("a", "gm")%string ∧
  (KVStorage.get r1.2 "a" 2).1 = None ∧
  let r2 := KVStorage.removeOneExpiredEntry r1.2 2 in
  r2.1 = Some ("b", "gm")%string ∧
  (KVStorage.get r2.2 "b" 2).1 = None ∧
  let r3 := KVStorage.removeOneExpiredEntry r2.2 2 in
  r3.1 = Some ("c", "gm")%string ∧
  (KVStorage.get r3.2 "c" 2).1 = None ∧
  (KVStorage.removeOneExpiredEntry r3.2 2).1 = None.
Proof. vm_compute. repeat split. Qed.

(** * Facts about the containers *)

(** ** The order on keys *)

Section string_order.

Lemma ltb_false_le (a b : string) : String.ltb a b = false ↔ String.le b a.
Proof.
  unfold String.le, String.ltb, String.leb.
  rewrite (String.compare_antisym a b).
  destruct (String.compare b a); simpl; split; (done || intros []).
Qed.

Lemma ltb_true_not_le (a b : string) : String.ltb a b = true ↔ ¬ String.le b a.
Proof.
  rewrite <-ltb_false_le. destruct (String.ltb a b); naive_solver.
Qed.

Lemma ltb_irrefl (a : string) : String.ltb a a = false.
Proof. apply ltb_false_le. reflexivity. Qed.

Lemma ltb_true_le (a b : string) : String.ltb a b = true → String.le a b.
Proof.
  rewrite ltb_true_not_le. intros Hn.
  destruct (total String.le a b); [done | contradiction].
Qed.

Lemma le_ne_ltb (a b : string) : String.le a b → a ≠ b → String.ltb a b = true.
Proof.
  intros Hab Hne. apply ltb_true_not_le. intros Hba.
  apply Hne. by apply (anti_symm String.le).
Qed.

End string_order.

(** ** The order of the expiration set *)

Section comparator.

Implicit Types a b c : timedSetMember.t.

(** The comparator is the strict lexicographic order on
    (death_time, map_key). *)
Lemma timedSetComparator_true a b :
  timedSetComparator a b = true ↔
  timedSetMember.death_time a < timedSetMember.death_time b
  ∨ (timedSetMember.death_time a = timedSetMember.death_time b
     ∧ String.ltb (timedSetMember.map_key a) (timedSetMember.map_key b) = true).
Proof.
  unfold timedSetComparator.
  rewrite orb_true_iff, andb_true_iff, Z.ltb_lt, Z.eqb_eq. done.
Qed.

Lemma not_after_comparator a b :
  not_after timedSetComparator a b ↔
  timedSetMember.death_time a < timedSetMember.death_time b
  ∨ (timedSetMember.death_time a = timedSetMember.death_time b
     ∧ String.le (timedSetMember.map_key a) (timedSetMember.map_key b)).
Proof.
  unfold not_after.
  destruct (timedSetComparator b a) eqn:E.
  - apply timedSetComparator_true in E as [E | [E1 E2]].
    + split; [done | lia].
    + apply ltb_true_not_le in E2. split; [done|]. intros [?|[_ ?]]; [lia | done].
  - split; [intros _ | done].
    assert (¬ (timedSetMember.death_time b < timedSetMember.death_time a
      ∨ (timedSetMember.death_time b = timedSetMember.death_time a
         ∧ String.ltb (timedSetMember.map_key b) (timedSetMember.map_key a) = true)))
      as Hn.
    { rewrite <-timedSetComparator_true, E. done. }
    destruct (Z.lt_trichotomy (timedSetMember.death_time a)
                              (timedSetMember.death_time b)) as [?|[Heq|?]].
    + by left.
    + right. split; [done|]. apply ltb_false_le.
      destruct (String.ltb _ _) eqn:E'; [|done].
      exfalso. apply Hn. right. done.
    + exfalso. apply Hn. by left.
Qed.

#[global] Instance not_after_comparator_total :
  Total (not_after timedSetComparator).
Proof.
  intros a b. rewrite !not_after_comparator.
  destruct (Z.lt_trichotomy (timedSetMember.death_time a)
                            (timedSetMember.death_time b)) as [?|[Heq|?]];
    [by left; left | | by right; left].
  destruct (total String.le (timedSetMember.map_key a) (timedSetMember.map_key b)).
  - left. by right.
  - right. by right.
Qed.

#[global] Instance not_after_comparator_trans :
  Transitive (not_after timedSetComparator).
Proof.
  intros a b c. rewrite !not_after_comparator.
  intros [?|[? Hab]] [?|[? Hbc]]; try (left; lia).
  right. split; [lia|]. by trans (timedSetMember.map_key b).
Qed.

#[global] Instance not_after_comparator_antisymm :
  AntiSymm (=) (not_after timedSetComparator).
Proof.
  intros [ka ta] [kb tb]. rewrite !not_after_comparator. simpl.
  intros [?|[? Hab]] [?|[? Hba]]; try lia.
  f_equal; [|done]. by apply (anti_symm String.le).
Qed.

#[global] Instance not_after_comparator_refl :
  Reflexive (not_after timedSetComparator).
Proof. intros a. apply not_after_comparator. right. done. Qed.

(** Equivalence under the comparator is equality of both fields: the
    expiration set is a set of (map_key, death_time) pairs. *)
Lemma equivalent_eq a b : equivalent a b = true ↔ a = b.
Proof.
  unfold equivalent. rewrite andb_true_iff, !negb_true_iff.
  split.
  - intros [H1 H2]. by apply (anti_symm (not_after timedSetComparator)).
  - intros ->. split; apply (reflexivity (R := not_after timedSetComparator)).
Qed.

End comparator.

(** ** The expiration set as a [std::set] *)

Section expiration_set.

Implicit Types s : gset timedSetMember.t.
Implicit Types x b : timedSetMember.t.

Lemma set_in_order_perm s : set_in_order s ≡ₚ elements s.
Proof. apply merge_sort_Permutation. Qed.

Lemma elem_of_set_in_order x s : x ∈ set_in_order s ↔ x ∈ s.
Proof. by rewrite set_in_order_perm, elem_of_elements. Qed.

Lemma set_in_order_sorted s :
  StronglySorted (not_after timedSetComparator) (set_in_order s).
Proof. apply StronglySorted_merge_sort; tc_solve. Qed.

Lemma set_in_order_NoDup s : NoDup (set_in_order s).
Proof. rewrite set_in_order_perm. apply NoDup_elements. Qed.

Lemma set_find_decide x s :
  set_find x s = if decide (x ∈ s) then Some x else None.
Proof.
  unfold set_find.
  destruct (head _) as [y|] eqn:Hhd.
  - apply head_Some_elem_of, list_elem_of_filter in Hhd as [Heq Hin].
    apply equivalent_eq in Heq as ->.
    apply elem_of_set_in_order in Hin. by rewrite decide_True.
  - apply head_None in Hhd. rewrite decide_False; [done|].
    intros Hin. apply elem_of_set_in_order in Hin.
    assert (x ∈ filter (λ e, equivalent e x = true) (set_in_order s)) as Hx.
    { apply list_elem_of_filter. split; [by apply equivalent_eq | done]. }
    rewrite Hhd in Hx. by apply not_elem_of_nil in Hx.
Qed.

Lemma set_emplace_union x s : set_emplace x s = {[ x ]} ∪ s.
Proof.
  unfold set_emplace. rewrite set_find_decide.
  case_decide; [set_solver | done].
Qed.

Lemma set_begin_None s : set_begin s = None ↔ s = ∅.
Proof.
  unfold set_begin. rewrite head_None. split.
  - intros Hnil. apply leibniz_equiv, elements_empty_inv.
    apply Permutation_nil_r. by rewrite <-set_in_order_perm, Hnil.
  - intros ->. unfold set_in_order. by rewrite elements_empty.
Qed.

Lemma set_begin_Some s b :
  set_begin s = Some b →
  b ∈ s ∧ ∀ x, x ∈ s → not_after timedSetComparator b x.
Proof.
  unfold set_begin. intros Hhd.
  pose proof (set_in_order_sorted s) as Hsorted.
  destruct (set_in_order s) as [|b' l] eqn:El; simplify_eq/=.
  split.
  - apply elem_of_set_in_order. rewrite El. left.
  - intros x Hx. apply elem_of_set_in_order in Hx. rewrite El in Hx.
    apply StronglySorted_inv in Hsorted as [_ Hall].
    apply elem_of_cons in Hx as [->|Hx]; [reflexivity|].
    by eapply Forall_forall in Hall.
Qed.

(** Erasing [*begin()] leaves the rest of the sequence as it was. *)
Lemma set_in_order_erase_begin s b :
  set_begin s = Some b →
  set_in_order s = b :: set_in_order (set_erase b s).
Proof.
  unfold set_begin, set_erase. intros Hhd.
  pose proof (set_in_order_sorted s) as Hsorted.
  pose proof (set_in_order_perm s) as Hperm.
  destruct (set_in_order s) as [|b' l] eqn:El; simplify_eq/=.
  f_equal.
  apply (StronglySorted_unique (not_after timedSetComparator)).
  - by apply StronglySorted_inv in Hsorted as [? _].
  - apply set_in_order_sorted.
  - rewrite set_in_order_perm.
    apply (Permutation_cons_inv (a := b)).
    rewrite Hperm.
    assert (b ∈ s) as Hb.
    { apply elem_of_elements. rewrite <-Hperm. left. }
    rewrite <-elements_union_singleton by set_solver.
    f_equiv. apply leibniz_equiv_iff.
    apply set_eq. intros y. rewrite elem_of_union, elem_of_singleton,
      elem_of_difference, elem_of_singleton.
    destruct (decide (y = b)); naive_solver.
Qed.

End expiration_set.

(** ** The primary map as a [std::map] *)

Section primary_map.

Context {V : Type}.
Implicit Types m : gmap string V.

Lemma map_in_order_perm m : map_in_order m ≡ₚ map_to_list m.
Proof. apply merge_sort_Permutation. Qed.

Lemma elem_of_map_in_order m k v :
  (k, v) ∈ map_in_order m ↔ m !! k = Some v.
Proof. by rewrite map_in_order_perm, elem_of_map_to_list. Qed.

#[local] Instance not_after_less_key_total :
  Total (not_after (@less_key V)).
Proof.
  intros a b. unfold not_after, less_key. rewrite !ltb_false_le.
  apply (total String.le).
Qed.

#[local] Instance not_after_less_key_trans :
  Transitive (not_after (@less_key V)).
Proof.
  intros a b c. unfold not_after, less_key. rewrite !ltb_false_le.
  intros ??. by trans b.1.
Qed.

Lemma sorted_NoDup_strict (l : list (string * V)) :
  StronglySorted (not_after less_key) l → NoDup l.*1 →
  StronglySorted key_lt l.
Proof.
  induction 1 as [|a l Hl IH Hall]; intros Hnd; [constructor|].
  rewrite fmap_cons in Hnd. apply NoDup_cons in Hnd as [Hnotin Hnd].
  constructor; [by apply IH|].
  apply Forall_forall. intros b Hb.
  eapply Forall_forall in Hall; [|done].
  unfold not_after, less_key in Hall. apply ltb_false_le in Hall.
  apply le_ne_ltb; [done|].
  intros Heq. apply Hnotin. rewrite Heq. by apply list_elem_of_fmap_2.
Qed.

Lemma map_in_order_sorted m : StronglySorted key_lt (map_in_order m).
Proof.
  apply sorted_NoDup_strict.
  - apply StronglySorted_merge_sort; tc_solve.
  - rewrite map_in_order_perm. apply NoDup_fst_map_to_list.
Qed.

End primary_map.

(** * The methods, one equation each *)

Section method_equations.

Implicit Types self : KVStorage.t.
Implicit Types key value : string.
Implicit Types member : timedKVMember.t.

Lemma storage_eta self :
  KVStorage.mk (KVStorage.kv_map_ self) (KVStorage.expiration_set_ self) = self.
Proof. by destruct self. Qed.

Lemma mapContains_true self key :
  KVStorage.mapContains self key = true ↔
  is_Some (KVStorage.kv_map_ self !! key).
Proof. unfold KVStorage.mapContains. apply bool_decide_eq_true. Qed.

Lemma mapContains_Some self key member :
  KVStorage.kv_map_ self !! key = Some member →
  KVStorage.mapContains self key = true.
Proof. intros H. apply mapContains_true. eauto. Qed.

Lemma mapContains_None self key :
  KVStorage.kv_map_ self !! key = None →
  KVStorage.mapContains self key = false.
Proof.
  intros H. unfold KVStorage.mapContains. apply bool_decide_eq_false.
  rewrite H. by intros [? ?].
Qed.

Lemma map_subscript_Some (m : gmap string timedKVMember.t) key member :
  m !! key = Some member → map_subscript m key = (member, m).
Proof. unfold map_subscript. by intros ->. Qed.

Lemma set_erase_absent (x : timedSetMember.t) (s : gset timedSetMember.t) :
  x ∉ s → set_erase x s = s.
Proof. unfold set_erase. set_solver. Qed.

(** On a key of the map, [tryToRemoveFromSet] erases the pair made of
    the key and its recorded death time, and nothing else. *)
Lemma tryToRemoveFromSet_Some self key member :
  KVStorage.kv_map_ self !! key = Some member →
  KVStorage.tryToRemoveFromSet self key
  = KVStorage.mk (KVStorage.kv_map_ self)
      (set_erase (timedSetMember.mk key (timedKVMember.death_time member))
                 (KVStorage.expiration_set_ self)).
Proof.
  intros Hkey. unfold KVStorage.tryToRemoveFromSet.
  rewrite (map_subscript_Some _ _ _ Hkey), set_find_decide.
  case_decide; [done|]. by rewrite set_erase_absent.
Qed.

Lemma set_unfold_eq self key value ttl clk :
  KVStorage.set self key value ttl clk
  = KVStorage.mk
      (<[key := timedKVMember.mk value (KVStorage.getDeathTime_ ttl clk)]>
         (KVStorage.kv_map_ self))
      (if ttl =? 0 then without_key self key
       else {[ timedSetMember.mk key (KVStorage.getDeathTime_ ttl clk) ]}
            ∪ without_key self key).
Proof.
  unfold KVStorage.set, without_key.
  destruct (KVStorage.kv_map_ self !! key) as [member|] eqn:Hkey.
  - rewrite (mapContains_Some _ _ _ Hkey),
      (tryToRemoveFromSet_Some _ _ _ Hkey).
    destruct (ttl =? 0); simpl; [done|]. by rewrite set_emplace_union.
  - rewrite (mapContains_None _ _ Hkey).
    destruct (ttl =? 0); simpl; [done|]. by rewrite set_emplace_union.
Qed.

Lemma remove_unfold_eq self key :
  KVStorage.remove self key
  = match KVStorage.kv_map_ self !! key with
    | Some _ =>
        (true, KVStorage.mk (delete key (KVStorage.kv_map_ self))
                            (without_key self key))
    | None => (false, self)
    end.
Proof.
  unfold KVStorage.remove, without_key.
  destruct (KVStorage.kv_map_ self !! key) as [member|] eqn:Hkey.
  - by rewrite (mapContains_Some _ _ _ Hkey),
      (tryToRemoveFromSet_Some _ _ _ Hkey).
  - by rewrite (mapContains_None _ _ Hkey).
Qed.

Lemma keyAvailable_unfold_eq self key clk :
  KVStorage.keyAvailable self key clk
  = match KVStorage.kv_map_ self !! key with
    | Some member =>
        (if decide (timedSetMember.mk key (timedKVMember.death_time member)
                      ∈ KVStorage.expiration_set_ self)
         then to_uint64 clk <? timedKVMember.death_time member
         else true, self)
    | None => (false, self)
    end.
Proof.
  unfold KVStorage.keyAvailable.
  destruct (KVStorage.kv_map_ self !! key) as [member|] eqn:Hkey.
  - rewrite (mapContains_Some _ _ _ Hkey), (map_subscript_Some _ _ _ Hkey),
      set_find_decide. simpl.
    case_decide; by rewrite storage_eta.
  - by rewrite (mapContains_None _ _ Hkey).
Qed.

Lemma get_unfold_eq self key clk :
  KVStorage.get self key clk
  = match KVStorage.kv_map_ self !! key with
    | Some member =>
        (if (KVStorage.keyAvailable self key clk).1
         then Some (timedKVMember.value member) else None, self)
    | None => (None, self)
    end.
Proof.
  unfold KVStorage.get. rewrite keyAvailable_unfold_eq.
  destruct (KVStorage.kv_map_ self !! key) as [member|] eqn:Hkey; [|done].
  simpl.
  destruct (if decide _ then _ else _); simpl; [|done].
  by rewrite (map_subscript_Some _ _ _ Hkey), storage_eta.
Qed.

End method_equations.

(** * Preservation of consistency *)

Section consistency.

Implicit Types self : KVStorage.t.

Lemma index_in_map_I2 self : index_in_map self → I2 self.
Proof.
  intros Hidx [k1 t1] [k2 t2] H1 H2. simpl. intros <-.
  destruct (Hidx _ H1) as [v1 Hv1], (Hidx _ H2) as [v2 Hv2].
  simpl in *. congruence.
Qed.

Lemma consistent_intro self :
  index_in_map self → finite_in_index self → consistent self.
Proof. intros ??. split_and!; [done..|]. by apply index_in_map_I2. Qed.

Lemma consistent_empty : consistent KVStorage.empty.
Proof.
  apply consistent_intro.
  - intros e He. by apply not_elem_of_empty in He.
  - intros k member Hk. simpl in Hk. by rewrite lookup_empty in Hk.
Qed.

(** In a consistent store the pairs left by [without_key] are the pairs
    of the other keys. *)
Lemma elem_of_without_key self key e :
  consistent self →
  e ∈ without_key self key ↔
  e ∈ KVStorage.expiration_set_ self ∧ timedSetMember.map_key e ≠ key.
Proof.
  intros (Hidx & _ & _). unfold without_key, set_erase.
  destruct (KVStorage.kv_map_ self !! key) as [member|] eqn:Hkey.
  - rewrite elem_of_difference, elem_of_singleton. split.
    + intros [He Hne]. split; [done|]. intros <-.
      destruct (Hidx _ He) as [v Hv]. apply Hne.
      rewrite Hkey in Hv. injection Hv as ->. by destruct e.
    + intros [He Hne]. split; [done|]. intros ->. by apply Hne.
  - split; [|naive_solver].
    intros He. split; [done|]. intros <-.
    destruct (Hidx _ He) as [v Hv]. congruence.
Qed.

Lemma consistent_set self key value ttl clk :
  consistent self → consistent (KVStorage.set self key value ttl clk).
Proof.
  intros Hc. pose proof Hc as (Hidx & Hfin & _).
  rewrite set_unfold_eq. apply consistent_intro.
  - intros e He. simpl in *.
    assert (e = timedSetMember.mk key (KVStorage.getDeathTime_ ttl clk)
                ∧ ttl ≠ 0
            ∨ e ∈ without_key self key) as [[-> _]|Hin].
    { destruct (ttl =? 0) eqn:E; [by right|].
      apply Z.eqb_neq in E.
      apply elem_of_union in He as [->%elem_of_singleton|?]; auto. }
    + simpl. rewrite lookup_insert_eq. eauto.
    + apply (elem_of_without_key _ _ _ Hc) in Hin as [Hin Hne].
      rewrite lookup_insert_ne by done. by apply Hidx.
  - intros k member Hk Hdt. simpl in *.
    destruct (decide (key = k)) as [->|Hne].
    + rewrite lookup_insert_eq in Hk. simplify_eq/=.
      unfold KVStorage.getDeathTime_ in *.
      destruct (ttl =? 0); [done|]. set_solver.
    + rewrite lookup_insert_ne in Hk by done.
      assert (timedSetMember.mk k (timedKVMember.death_time member)
                ∈ without_key self key).
      { apply (elem_of_without_key _ _ _ Hc). split; [by eapply Hfin|].
        simpl. congruence. }
      destruct (ttl =? 0); set_solver.
Qed.

(** The pairs of [key] in the index are not touched by a [set] of
    another key. *)
Lemma set_index_ne self k value ttl clk e :
  consistent self → timedSetMember.map_key e ≠ k →
  e ∈ KVStorage.expiration_set_ (KVStorage.set self k value ttl clk) ↔
  e ∈ KVStorage.expiration_set_ self.
Proof.
  intros Hc Hne. rewrite set_unfold_eq. simpl.
  destruct (ttl =? 0).
  - rewrite (elem_of_without_key _ _ _ Hc). naive_solver.
  - rewrite elem_of_union, elem_of_singleton,
      (elem_of_without_key _ _ _ Hc).
    split; [|naive_solver]. intros [->|[? _]]; [by destruct Hne|done].
Qed.

Lemma consistent_remove self key :
  consistent self → consistent (KVStorage.remove self key).2.
Proof.
  intros Hc. pose proof Hc as (Hidx & Hfin & _).
  rewrite remove_unfold_eq.
  destruct (KVStorage.kv_map_ self !! key) as [member|] eqn:Hkey; [|done].
  apply consistent_intro.
  - intros e He. simpl in *.
    apply (elem_of_without_key _ _ _ Hc) in He as [He Hne].
    rewrite lookup_delete_ne by done. by apply Hidx.
  - intros k m Hk Hdt. simpl in *.
    apply lookup_delete_Some in Hk as [Hne Hk].
    apply (elem_of_without_key _ _ _ Hc). split; [by eapply Hfin|].
    simpl. congruence.
Qed.

Lemma get_state self key clk : (KVStorage.get self key clk).2 = self.
Proof.
  rewrite get_unfold_eq. by destruct (KVStorage.kv_map_ self !! key).
Qed.

Lemma getManySorted_state self key count clk :
  (KVStorage.getManySorted self key count clk).2 = self.
Proof. unfold KVStorage.getManySorted. by destruct (count =? 0). Qed.

(** [removeOneExpiredEntry] when it has something to evict. *)
Lemma removeOneExpiredEntry_evicts self clk first :
  consistent self →
  set_begin (KVStorage.expiration_set_ self) = Some first →
  timedSetMember.death_time first <= to_uint64 clk →
  ∃ v,
    KVStorage.kv_map_ self !! timedSetMember.map_key first
    = Some (timedKVMember.mk v (timedSetMember.death_time first))
    ∧ KVStorage.removeOneExpiredEntry self clk
      = (Some (timedSetMember.map_key first, v),
         KVStorage.mk
           (delete (timedSetMember.map_key first) (KVStorage.kv_map_ self))
           (set_erase first (KVStorage.expiration_set_ self)))
    ∧ KVStorage.removeOneExpiredEntry self clk
      = (Some (timedSetMember.map_key first, v),
         (KVStorage.remove self (timedSetMember.map_key first)).2).
Proof.
  intros (Hidx & _ & _) Hbegin Hdt.
  destruct (set_begin_Some _ _ Hbegin) as [Hin _].
  destruct (Hidx _ Hin) as [v Hv]. exists v. split; [done|].
  unfold KVStorage.removeOneExpiredEntry. rewrite Hbegin.
  rewrite (proj2 (Z.ltb_ge _ _) Hdt).
  rewrite (map_subscript_Some _ _ _ Hv), storage_eta.
  rewrite remove_unfold_eq. unfold without_key. rewrite Hv. simpl.
  by destruct first.
Qed.

(** [removeOneExpiredEntry] when it has nothing to evict. *)
Lemma removeOneExpiredEntry_absent self clk :
  (KVStorage.removeOneExpiredEntry self clk).1 = None ↔
  set_begin (KVStorage.expiration_set_ self) = None
  ∨ ∃ first, set_begin (KVStorage.expiration_set_ self) = Some first
             ∧ to_uint64 clk < timedSetMember.death_time first.
Proof.
  unfold KVStorage.removeOneExpiredEntry.
  destruct (set_begin _) as [first|]; [|naive_solver].
  destruct (Z.ltb_spec (to_uint64 clk) (timedSetMember.death_time first)).
  - naive_solver.
  - destruct (map_subscript _ _), (KVStorage.remove _ _). simpl.
    split; [done|]. intros [?|(? & ? & ?)]; [done|]. simplify_eq. lia.
Qed.

Lemma removeOneExpiredEntry_absent_state self clk :
  (KVStorage.removeOneExpiredEntry self clk).1 = None →
  (KVStorage.removeOneExpiredEntry self clk).2 = self.
Proof.
  unfold KVStorage.removeOneExpiredEntry.
  destruct (set_begin _) as [first|]; [|done].
  destruct (to_uint64 clk <? timedSetMember.death_time first); [done|].
  by destruct (map_subscript _ _), (KVStorage.remove _ _).
Qed.

(** What a call of [removeOneExpiredEntry] leaves: the store as it was,
    or the store after [remove] on the key of a pair that was due. *)
Lemma removeOneExpiredEntry_state self clk :
  consistent self →
  (KVStorage.removeOneExpiredEntry self clk).2 = self
  ∨ ∃ first,
      first ∈ KVStorage.expiration_set_ self
      ∧ timedSetMember.death_time first <= to_uint64 clk
      ∧ (KVStorage.removeOneExpiredEntry self clk).2
        = (KVStorage.remove self (timedSetMember.map_key first)).2.
Proof.
  intros Hc.
  destruct (set_begin (KVStorage.expiration_set_ self)) as [first|] eqn:Hb.
  - destruct (Z.ltb_spec (to_uint64 clk) (timedSetMember.death_time first)).
    + left. apply removeOneExpiredEntry_absent_state.
      apply removeOneExpiredEntry_absent. eauto.
    + right. exists first.
      destruct (removeOneExpiredEntry_evicts _ clk _ Hc Hb) as (v & _ & _ & ->);
        [done|].
      by apply set_begin_Some in Hb as [? _].
  - left. apply removeOneExpiredEntry_absent_state.
    apply removeOneExpiredEntry_absent. eauto.
Qed.

Lemma consistent_removeOneExpiredEntry self clk :
  consistent self → consistent (KVStorage.removeOneExpiredEntry self clk).2.
Proof.
  intros Hc.
  destruct (removeOneExpiredEntry_state self clk Hc) as [->|(first & _ & _ & ->)];
    [done|].
  by apply consistent_remove.
Qed.

Lemma consistent_run self o clk : consistent self → consistent (run o clk self).
Proof.
  intros Hc. destruct o; simpl.
  - by apply consistent_set.
  - by apply consistent_remove.
  - by rewrite get_state.
  - by rewrite getManySorted_state.
  - by apply consistent_removeOneExpiredEntry.
Qed.

Lemma consistent_run_all calls self :
  consistent self → consistent (run_all calls self).
Proof.
  revert self. induction calls as [|[o clk] calls IH]; intros self Hc; [done|].
  apply IH. by apply consistent_run.
Qed.

Lemma consistent_foldl_set entries (clock_ : nat → Z) (i : nat) self :
  consistent self →
  consistent
    (foldl (λ '(s, i) '(key, value, ttl),
              (KVStorage.set s key value ttl (clock_ i), S i))
           (self, i) entries).1.
Proof.
  revert self i.
  induction entries as [|[[key value] ttl] entries IH]; intros self i Hc; [done|].
  apply IH. by apply consistent_set.
Qed.

Lemma consistent_KVStorage entries (clock_ : nat → Z) :
  consistent (KVStorage.KVStorage entries clock_).
Proof. apply consistent_foldl_set, consistent_empty. Qed.

End consistency.

(** * getManySorted *)

Section scan.

Implicit Types self : KVStorage.t.

Lemma StronglySorted_sublist {A} (R : relation A) (l1 l2 : list A) :
  l1 `sublist_of` l2 → StronglySorted R l2 → StronglySorted R l1.
Proof.
  induction 1 as [|x l1 l2 Hsub IH|x l1 l2 Hsub IH]; intros Hs.
  - constructor.
  - apply StronglySorted_inv in Hs as [Hs Hall]. constructor; [by apply IH|].
    apply Forall_forall. intros y Hy.
    eapply Forall_forall in Hall; [done|]. by eapply elem_of_sublist.
  - apply StronglySorted_inv in Hs as [Hs _]. by apply IH.
Qed.

(** The loop appends the first [count] matching entries, in the order
    of the iteration. *)
Lemma getManySorted_loop_eq its key count now result :
  0 <= count →
  KVStorage.getManySorted_loop its key count now result
  = result ++ (scan_entry <$>
      take (Z.to_nat count) (filter (λ it, scan_match key now it = true) its)).
Proof.
  revert count result.
  induction its as [|it rest IH]; intros count result Hcount; simpl.
  { by rewrite filter_nil, take_nil, app_nil_r. }
  destruct (Z.ltb_spec 0 count) as [Hpos|Hzero].
  - destruct (timedKVMember.death_time it.2 <=? now) eqn:Hdead.
    { rewrite filter_cons_False; [by apply IH|].
      unfold scan_match. by rewrite Hdead. }
    destruct (String.ltb it.1 key) eqn:Hbefore; simpl.
    { rewrite filter_cons_False; [by apply IH|].
      unfold scan_match. by rewrite Hdead, Hbefore. }
    rewrite filter_cons_True by (unfold scan_match; by rewrite Hdead, Hbefore).
    replace (Z.to_nat count) with (S (Z.to_nat (count - 1))) by lia.
    rewrite IH by lia. csimpl. by rewrite <-app_assoc.
  - replace count with 0 by lia. simpl. by rewrite app_nil_r.
Qed.

Lemma getManySorted_eq self key count clk :
  0 <= count →
  (KVStorage.getManySorted self key count clk).1
  = scan_entry <$>
      take (Z.to_nat count)
        (filter (λ it, scan_match key (to_uint64 clk) it = true)
                (map_in_order (KVStorage.kv_map_ self))).
Proof.
  intros Hcount. unfold KVStorage.getManySorted.
  destruct (Z.eqb_spec count 0) as [->|Hne]; [done|].
  simpl. by rewrite getManySorted_loop_eq.
Qed.

Lemma scan_match_true key now it :
  scan_match key now it = true ↔
  now < timedKVMember.death_time it.2 ∧ String.le key it.1.
Proof.
  unfold scan_match.
  rewrite andb_true_iff, !negb_true_iff, Z.leb_gt, ltb_false_le. done.
Qed.

Lemma elem_of_getManySorted self key count clk k v :
  0 <= count →
  (k, v) ∈ (KVStorage.getManySorted self key count clk).1 →
  ∃ member,
    KVStorage.kv_map_ self !! k = Some member
    ∧ timedKVMember.value member = v
    ∧ to_uint64 clk < timedKVMember.death_time member
    ∧ String.le key k.
Proof.
  intros Hcount. rewrite getManySorted_eq by done.
  intros ([k' member] & Heq & Hin)%list_elem_of_fmap.
  unfold scan_entry in Heq. simplify_eq/=.
  eapply elem_of_sublist in Hin; [|apply sublist_take].
  apply list_elem_of_filter in Hin as [Hmatch Hin].
  apply elem_of_map_in_order in Hin.
  apply scan_match_true in Hmatch as [? ?]. eauto.
Qed.

End scan.

(** C4. For every key, count and state, [getManySorted] returns no entry
    whose death time is at or before the current time, at most [count]
    entries, keys strictly ascending and none before [key]; the result
    is empty when [count] is zero. *)
Theorem getManySorted_filtered_bounded_ascending
    (self : KVStorage.t) (key : string) (count clk : Z) :
  0 <= count →
  let result := (KVStorage.getManySorted self key count clk).1 in
  (∀ k v, (k, v) ∈ result →
     ∃ member, KVStorage.kv_map_ self !! k = Some member
               ∧ timedKVMember.value member = v
               ∧ ¬ (timedKVMember.death_time member <= to_uint64 clk))
  ∧ Z.of_nat (length result) <= count
  ∧ StronglySorted (λ a b, String.ltb a.1 b.1 = true) result
  ∧ (∀ k v, (k, v) ∈ result → String.ltb k key = false)
  ∧ (count = 0 → result = []).
Proof.
  intros Hcount result. split_and!.
  - intros k v Hin.
    destruct (elem_of_getManySorted _ _ _ _ _ _ Hcount Hin)
      as (member & ? & ? & ? & ?).
    exists member. split_and!; [done..|lia].
  - subst result. rewrite getManySorted_eq by done.
    rewrite length_fmap, length_take. lia.
  - subst result. rewrite getManySorted_eq by done.
    apply (StronglySorted_fmap _ key_lt); [done|].
    eapply StronglySorted_sublist; [|apply map_in_order_sorted].
    etrans; [apply sublist_take | apply sublist_filter].
  - intros k v Hin.
    destruct (elem_of_getManySorted _ _ _ _ _ _ Hcount Hin)
      as (member & ? & ? & ? & ?).
    by apply ltb_false_le.
  - intros ->. done.
Qed.

Lemma getManySorted_filtered_bounded_ascending_witness :
  let self := KVStorage.KVStorage
                [("a", "1", 2); ("b", "2", 0); ("d", "4", 3);
                 ("e", "5", 1); ("x", "j9", 2)]%string (λ _, 0) in
  (KVStorage.getManySorted self "c" 3 1).1 = [("d", "4"); ("x", "j9")]%string
  ∧ Z.of_nat (length (KVStorage.getManySorted self "c" 3 1).1) <= 3.
Proof.
  intros self. split; [by vm_compute|].
  refine (proj1 (proj2
    (getManySorted_filtered_bounded_ascending self "c" 3 1 _))).
  lia.
Defined.

(** * get and the expiration boundary *)

Section availability.

Implicit Types self : KVStorage.t.

Lemma getDeathTime_nonzero ttl clk :
  ttl ≠ 0 → is_uint32 ttl →
  KVStorage.getDeathTime_ ttl clk = (to_uint64 clk + ttl) mod 2 ^ 64.
Proof.
  intros Hne [Hlo Hhi]. unfold KVStorage.getDeathTime_.
  rewrite (proj2 (Z.eqb_neq ttl 0) Hne).
  unfold to_uint64. rewrite (Z.mod_small ttl) by lia.
  by rewrite Z.add_comm.
Qed.

Lemma getDeathTime_no_overflow ttl clk :
  ttl ≠ 0 → is_uint32 ttl → is_uint64 clk → clk + ttl < 2 ^ 64 →
  KVStorage.getDeathTime_ ttl clk = clk + ttl.
Proof.
  intros Hne Httl [Hlo Hhi] Hfit. rewrite getDeathTime_nonzero by done.
  unfold to_uint64. rewrite (Z.mod_small clk) by lia.
  destruct Httl. apply Z.mod_small. lia.
Qed.

Lemma to_uint64_range x : is_uint64 (to_uint64 x).
Proof. unfold is_uint64, to_uint64. apply Z.mod_pos_bound. lia. Qed.

(** [get] in terms of the two structures, in any state. *)
Lemma get_Some_iff self key clk v :
  (KVStorage.get self key clk).1 = Some v ↔
  ∃ member,
    KVStorage.kv_map_ self !! key = Some member
    ∧ timedKVMember.value member = v
    ∧ (to_uint64 clk < timedKVMember.death_time member
       ∨ timedSetMember.mk key (timedKVMember.death_time member)
           ∉ KVStorage.expiration_set_ self).
Proof.
  rewrite get_unfold_eq, keyAvailable_unfold_eq.
  destruct (KVStorage.kv_map_ self !! key) as [member|] eqn:Hkey;
    [|naive_solver].
  simpl. case_decide as Hin.
  - destruct (Z.ltb_spec (to_uint64 clk) (timedKVMember.death_time member)).
    + split; [|naive_solver]. intros [= <-]. eauto 10.
    + split; [done|]. intros (m & [= <-] & _ & [?|?]); [lia|done].
  - split; [|naive_solver]. intros [= <-]. eauto 10.
Qed.

Lemma get_None_iff self key clk :
  (KVStorage.get self key clk).1 = None ↔
  ∀ member, KVStorage.kv_map_ self !! key = Some member →
    timedKVMember.death_time member <= to_uint64 clk
    ∧ timedSetMember.mk key (timedKVMember.death_time member)
        ∈ KVStorage.expiration_set_ self.
Proof.
  rewrite get_unfold_eq, keyAvailable_unfold_eq.
  destruct (KVStorage.kv_map_ self !! key) as [member|] eqn:Hkey;
    [|naive_solver].
  simpl. case_decide as Hin.
  - destruct (Z.ltb_spec (to_uint64 clk) (timedKVMember.death_time member)).
    + split; [done|]. intros H'. destruct (H' _ eq_refl). lia.
    + split; [|done]. intros _ m [= <-]. done.
  - split; [done|]. intros H'. by destruct (H' _ eq_refl).
Qed.

(** Right after [set] with a finite ttl the key is in both structures
    under the computed death time. *)
Lemma set_lookup self key value ttl clk :
  KVStorage.kv_map_ (KVStorage.set self key value ttl clk) !! key
  = Some (timedKVMember.mk value (KVStorage.getDeathTime_ ttl clk)).
Proof. rewrite set_unfold_eq. simpl. apply lookup_insert_eq. Qed.

Lemma set_lookup_ne self key value ttl clk k :
  key ≠ k →
  KVStorage.kv_map_ (KVStorage.set self key value ttl clk) !! k
  = KVStorage.kv_map_ self !! k.
Proof. intros Hne. rewrite set_unfold_eq. simpl. by apply lookup_insert_ne. Qed.

Lemma set_index_fresh self key value ttl clk :
  ttl ≠ 0 →
  timedSetMember.mk key (KVStorage.getDeathTime_ ttl clk)
    ∈ KVStorage.expiration_set_ (KVStorage.set self key value ttl clk).
Proof.
  intros Hne. rewrite set_unfold_eq. simpl.
  rewrite (proj2 (Z.eqb_neq ttl 0) Hne). set_solver.
Qed.

Lemma get_after_set self key value ttl t0 clk :
  ttl ≠ 0 →
  (KVStorage.get (KVStorage.set self key value ttl t0) key clk).1
  = if to_uint64 clk <? KVStorage.getDeathTime_ ttl t0
    then Some value else None.
Proof.
  intros Hne. rewrite get_unfold_eq, keyAvailable_unfold_eq, set_lookup.
  simpl. case_decide as Hin.
  - by destruct (_ <? _).
  - destruct Hin. exact (set_index_fresh self key value ttl t0 Hne).
Qed.

End availability.

(** * Reads leave the store alone *)

Section frame.

Implicit Types self : KVStorage.t.

Lemma run_reads self o clk : reads o → run o clk self = self.
Proof.
  destruct o; simpl; try done; intros _.
  - apply get_state.
  - apply getManySorted_state.
Qed.

Lemma run_all_reads calls self :
  Forall (λ c, reads c.1) calls → run_all calls self = self.
Proof.
  induction 1 as [|[o clk] calls Ho _ IH]; [done|].
  simpl in *. unfold run_all in *. simpl. by rewrite run_reads.
Qed.

Lemma remove_true_iff self key :
  (KVStorage.remove self key).1 = true ↔
  is_Some (KVStorage.kv_map_ self !! key).
Proof.
  rewrite remove_unfold_eq.
  destruct (KVStorage.kv_map_ self !! key) eqn:Hkey; simpl.
  - split; eauto.
  - split; [done|]. by intros [? ?].
Qed.

End frame.

(** C9. [get] and [getManySorted] never modify the store: both
    structures are as before after either call, so an entry, whether or
    not its death time has passed, is still stored after any number of
    them, and a later [remove] of it returns true. *)
Theorem get_getManySorted_leave_store (self : KVStorage.t) :
  (∀ key clk, (KVStorage.get self key clk).2 = self)
  ∧ (∀ key count clk, (KVStorage.getManySorted self key count clk).2 = self)
  ∧ (∀ calls k member,
       Forall (λ c, reads c.1) calls →
       KVStorage.kv_map_ self !! k = Some member →
       run_all calls self = self
       ∧ KVStorage.kv_map_ (run_all calls self) !! k = Some member
       ∧ (KVStorage.remove (run_all calls self) k).1 = true).
Proof.
  split_and!.
  - intros. apply get_state.
  - intros. apply getManySorted_state.
  - intros calls k member Hreads Hk.
    rewrite run_all_reads by done. split_and!; [done..|].
    apply remove_true_iff. eauto.
Qed.

Lemma get_getManySorted_leave_store_witness :
  let self := KVStorage.set KVStorage.empty "a" "1" 1 0 in
  let calls := [(op_get "a"%string, 5); (op_getManySorted ""%string 10, 5)] in
  (KVStorage.get self "a" 5).1 = None
  ∧ (KVStorage.remove (run_all calls self) "a").1 = true.
Proof.
  intros self calls. split; [by vm_compute|].
  refine (proj2 (proj2 (proj2 (proj2 (get_getManySorted_leave_store self))
            calls "a"%string (timedKVMember.mk "1" 1) _ _))).
  - repeat constructor.
  - by vm_compute.
Defined.

(** * remove *)

Section removal.

Implicit Types self : KVStorage.t.

Lemma remove_lookup self key :
  KVStorage.kv_map_ (KVStorage.remove self key).2 !! key = None.
Proof.
  rewrite remove_unfold_eq.
  destruct (KVStorage.kv_map_ self !! key) eqn:Hkey; simpl; [|done].
  apply lookup_delete_eq.
Qed.

Lemma remove_lookup_ne self key k :
  key ≠ k →
  KVStorage.kv_map_ (KVStorage.remove self key).2 !! k
  = KVStorage.kv_map_ self !! k.
Proof.
  intros Hne. rewrite remove_unfold_eq.
  destruct (KVStorage.kv_map_ self !! key) eqn:Hkey; simpl; [|done].
  by apply lookup_delete_ne.
Qed.

Lemma remove_index self key e :
  consistent self →
  e ∈ KVStorage.expiration_set_ (KVStorage.remove self key).2 ↔
  e ∈ KVStorage.expiration_set_ self ∧ timedSetMember.map_key e ≠ key.
Proof.
  intros Hc. rewrite remove_unfold_eq.
  destruct (KVStorage.kv_map_ self !! key) eqn:Hkey; simpl.
  - by apply elem_of_without_key.
  - rewrite <-(elem_of_without_key self key e Hc).
    unfold without_key. by rewrite Hkey.
Qed.

(** A key that is not in the map stays out of it under every call but
    a [set] of that key. *)
Lemma absent_run self key o clk :
  consistent self → ¬ sets key o →
  KVStorage.kv_map_ self !! key = None →
  KVStorage.kv_map_ (run o clk self) !! key = None.
Proof.
  intros Hc Hsets Hkey. destruct o as [k v ttl|k|k|k n|]; cbn [run sets] in *.
  - by rewrite set_lookup_ne.
  - destruct (decide (k = key)) as [->|Hne].
    + apply remove_lookup.
    + by rewrite remove_lookup_ne.
  - by rewrite get_state.
  - by rewrite getManySorted_state.
  - destruct (removeOneExpiredEntry_state self clk Hc)
      as [->|(first & _ & _ & ->)]; [done|].
    destruct (decide (timedSetMember.map_key first = key)) as [->|Hne].
    + apply remove_lookup.
    + by rewrite remove_lookup_ne.
Qed.

Lemma absent_run_all calls self key :
  consistent self → Forall (λ c, ¬ sets key c.1) calls →
  KVStorage.kv_map_ self !! key = None →
  KVStorage.kv_map_ (run_all calls self) !! key = None.
Proof.
  intros Hc Hcalls. revert self Hc.
  induction Hcalls as [|[o clk] calls Ho _ IH]; intros self Hc Hkey; [done|].
  apply IH.
  - by apply consistent_run.
  - by apply absent_run.
Qed.

End removal.

(** C7. [remove] returns true exactly when the key was in the primary
    map before the call, whether or not its death time has passed; it
    deletes the key from the primary map and from the expiration index;
    a second [remove] of the key, with no [set] of it in between,
    returns false. *)
Theorem remove_returns_presence (self : KVStorage.t) (key : string) :
  consistent self →
  ((KVStorage.remove self key).1 = true ↔
     is_Some (KVStorage.kv_map_ self !! key))
  ∧ (∀ member clk,
       KVStorage.kv_map_ self !! key = Some member →
       (KVStorage.get self key clk).1 = None →
       (KVStorage.remove self key).1 = true)
  ∧ KVStorage.kv_map_ (KVStorage.remove self key).2 !! key = None
  ∧ (∀ e, e ∈ KVStorage.expiration_set_ (KVStorage.remove self key).2 →
          timedSetMember.map_key e ≠ key)
  ∧ (∀ k, k ≠ key →
       KVStorage.kv_map_ (KVStorage.remove self key).2 !! k
       = KVStorage.kv_map_ self !! k)
  ∧ (∀ e, timedSetMember.map_key e ≠ key →
       (e ∈ KVStorage.expiration_set_ (KVStorage.remove self key).2 ↔
        e ∈ KVStorage.expiration_set_ self))
  ∧ (KVStorage.remove (KVStorage.remove self key).2 key).1 = false
  ∧ (∀ calls, Forall (λ c, ¬ sets key c.1) calls →
       (KVStorage.remove
          (run_all calls (KVStorage.remove self key).2) key).1 = false).
Proof.
  intros Hc.
  assert (∀ s, KVStorage.kv_map_ s !! key = None →
               (KVStorage.remove s key).1 = false) as Hfalse.
  { intros s Hs. rewrite remove_unfold_eq. by rewrite Hs. }
  split_and!.
  - apply remove_true_iff.
  - intros member clk Hkey _. apply remove_true_iff. eauto.
  - apply remove_lookup.
  - intros e He. by apply (remove_index _ _ _ Hc) in He as [_ ?].
  - intros k Hne. by apply remove_lookup_ne.
  - intros e Hne. rewrite (remove_index _ _ _ Hc). naive_solver.
  - apply Hfalse, remove_lookup.
  - intros calls Hcalls. apply Hfalse, absent_run_all; [|done|].
    + by apply consistent_remove.
    + apply remove_lookup.
Qed.

Lemma remove_returns_presence_witness :
  let self := KVStorage.set KVStorage.empty "b" "2" 1 0 in
  (KVStorage.get self "b" 7).1 = None
  ∧ (KVStorage.remove self "b").1 = true
  ∧ (KVStorage.remove (KVStorage.remove self "b").2 "b").1 = false.
Proof.
  intros self.
  assert (consistent self) as Hc by apply consistent_set, consistent_empty.
  pose proof (remove_returns_presence self "b" Hc)
    as (_ & Hexpired & _ & _ & _ & _ & Hsecond & _).
  split_and!.
  - by vm_compute.
  - apply (Hexpired (timedKVMember.mk "2" 1) 7); by vm_compute.
  - exact Hsecond.
Defined.

(** * A key with a finite ttl, over later calls *)

Section expiry.

Implicit Types self : KVStorage.t.

Lemma mortal_set self key value ttl clk :
  ttl ≠ 0 →
  mortal (KVStorage.set self key value ttl clk) key value
         (KVStorage.getDeathTime_ ttl clk).
Proof. intros Hne. split; [apply set_lookup | by apply set_index_fresh]. Qed.

Lemma mortal_get self key value death clk :
  mortal self key value death →
  (KVStorage.get self key clk).1
  = if to_uint64 clk <? death then Some value else None.
Proof.
  intros [Hmap Hidx].
  rewrite get_unfold_eq, keyAvailable_unfold_eq, Hmap. simpl.
  rewrite decide_True by done. by destruct (_ <? _).
Qed.

Lemma absent_get self key clk :
  KVStorage.kv_map_ self !! key = None →
  (KVStorage.get self key clk).1 = None.
Proof. intros Hkey. rewrite get_unfold_eq. by rewrite Hkey. Qed.

Lemma mortal_remove self key value death k :
  consistent self → k ≠ key →
  mortal self key value death →
  mortal (KVStorage.remove self k).2 key value death.
Proof.
  intros Hc Hne [Hmap Hidx]. split.
  - by rewrite remove_lookup_ne.
  - apply (remove_index _ _ _ Hc). split; [done|]. simpl. congruence.
Qed.

Lemma mortal_set_ne self key value death k v ttl clk :
  consistent self → k ≠ key →
  mortal self key value death →
  mortal (KVStorage.set self k v ttl clk) key value death.
Proof.
  intros Hc Hne [Hmap Hidx]. split.
  - by rewrite set_lookup_ne.
  - apply set_index_ne; [done| |done]. simpl. congruence.
Qed.

(** Under calls that do not write the key, it is evicted or still there
    with its death time. *)
Lemma gone_or_mortal_run self key value death o clk :
  consistent self → ¬ writes key o →
  KVStorage.kv_map_ self !! key = None ∨ mortal self key value death →
  KVStorage.kv_map_ (run o clk self) !! key = None
  ∨ mortal (run o clk self) key value death.
Proof.
  intros Hc Hw [Hgone|Hm].
  { left. apply absent_run; [done| |done].
    intros Hs. apply Hw. by destruct o. }
  destruct o as [k v ttl|k|k|k n|]; cbn [run writes] in *.
  - right. by apply mortal_set_ne.
  - right. by apply mortal_remove.
  - right. by rewrite get_state.
  - right. by rewrite getManySorted_state.
  - destruct (removeOneExpiredEntry_state self clk Hc)
      as [->|(first & _ & _ & ->)]; [by right|].
    destruct (decide (timedSetMember.map_key first = key)) as [<-|Hne].
    + left. apply remove_lookup.
    + right. by apply mortal_remove.
Qed.

(** It is still there when every eviction so far came before its death
    time. *)
Lemma mortal_run self key value death o clk :
  consistent self → ¬ writes key o → evicts_before death (o, clk) →
  mortal self key value death → mortal (run o clk self) key value death.
Proof.
  intros Hc Hw Hev Hm.
  destruct (gone_or_mortal_run self key value death o clk Hc Hw (or_intror Hm))
    as [Hgone|?]; [|done].
  exfalso. destruct Hm as [Hmap Hidx].
  destruct o as [k v ttl|k|k|k n|]; cbn [run writes] in *.
  - rewrite set_lookup_ne in Hgone by done. congruence.
  - rewrite remove_lookup_ne in Hgone by done. congruence.
  - rewrite get_state in Hgone. congruence.
  - rewrite getManySorted_state in Hgone. congruence.
  - specialize (Hev eq_refl). simpl in Hev.
    destruct (removeOneExpiredEntry_state self clk Hc)
      as [Heq|(first & Hin & Hdue & Heq)]; rewrite Heq in Hgone;
      [congruence|].
    destruct (decide (timedSetMember.map_key first = key)) as [Hk|Hne].
    + destruct Hc as (Hindex & _ & _). destruct (Hindex _ Hin) as [v Hv].
      rewrite Hk, Hmap in Hv. injection Hv as _ Hdeath. lia.
    + rewrite remove_lookup_ne in Hgone by done. congruence.
Qed.

Lemma gone_or_mortal_run_all calls self key value death :
  consistent self → Forall (λ c, ¬ writes key c.1) calls →
  KVStorage.kv_map_ self !! key = None ∨ mortal self key value death →
  KVStorage.kv_map_ (run_all calls self) !! key = None
  ∨ mortal (run_all calls self) key value death.
Proof.
  intros Hc Hcalls. revert self Hc.
  induction Hcalls as [|[o clk] calls Ho _ IH]; intros self Hc Hm; [done|].
  apply IH.
  - by apply consistent_run.
  - by apply gone_or_mortal_run.
Qed.

Lemma mortal_run_all calls self key value death :
  consistent self →
  Forall (λ c, ¬ writes key c.1 ∧ evicts_before death c) calls →
  mortal self key value death → mortal (run_all calls self) key value death.
Proof.
  intros Hc Hcalls. revert self Hc.
  induction Hcalls as [|[o clk] calls [Ho Hev] _ IH]; intros self Hc Hm; [done|].
  apply IH.
  - by apply consistent_run.
  - by apply mortal_run.
Qed.

End expiry.

(** C2, as the code has it.  [get] returns the stored value exactly
    when the key is in the primary map and either its death time is
    strictly after the current time or the key has no pair in the
    expiration index (it was set with ttl 0); in a consistent store a
    key whose death time is not the sentinel and is at or before the
    current time is unavailable; a key set with a ttl [T] other than 0 at
    time [t0] is retrievable at the times before the 64-bit sum of [t0]
    and [T], and at no time from that sum on: right after the [set], and
    after later calls that do not write the key (for the times before
    the sum, as long as no eviction ran at or after it). *)
Theorem get_available_iff (self : KVStorage.t) (key : string) (clk : Z) :
  (∀ v, (KVStorage.get self key clk).1 = Some v ↔
     ∃ member,
       KVStorage.kv_map_ self !! key = Some member
       ∧ timedKVMember.value member = v
       ∧ (to_uint64 clk < timedKVMember.death_time member
          ∨ timedSetMember.mk key (timedKVMember.death_time member)
              ∉ KVStorage.expiration_set_ self))
  ∧ (consistent self →
     ∀ member, KVStorage.kv_map_ self !! key = Some member →
       timedKVMember.death_time member ≠ maxTime_ →
       timedKVMember.death_time member <= to_uint64 clk →
       (KVStorage.get self key clk).1 = None)
  ∧ (∀ value T t0, T ≠ 0 → is_uint32 T →
       let death := (to_uint64 t0 + T) mod 2 ^ 64 in
       let self' := KVStorage.set self key value T t0 in
       (is_uint64 t0 → t0 + T < 2 ^ 64 → death = t0 + T)
       ∧ (to_uint64 clk < death → (KVStorage.get self' key clk).1 = Some value)
       ∧ (death <= to_uint64 clk → (KVStorage.get self' key clk).1 = None)
       ∧ (consistent self →
          ∀ calls, Forall (λ c, ¬ writes key c.1) calls →
            let self'' := run_all calls self' in
            (death <= to_uint64 clk → (KVStorage.get self'' key clk).1 = None)
            ∧ (Forall (evicts_before death) calls →
               to_uint64 clk < death →
               (KVStorage.get self'' key clk).1 = Some value))).
Proof.
  split_and!.
  - intros v. apply get_Some_iff.
  - intros (_ & Hfin & _) member Hkey Hne Hdead.
    apply get_None_iff. intros m Hm. simplify_eq. split; [done|].
    by apply Hfin.
  - intros value T t0 Hne HT death self'. subst death self'.
    rewrite <-getDeathTime_nonzero by done.
    pose proof (mortal_set self key value T t0 Hne) as Hm.
    split_and!.
    + intros Ht0 Hfit. by apply getDeathTime_no_overflow.
    + intros Hlt. rewrite get_after_set by done.
      by rewrite (proj2 (Z.ltb_lt _ _) Hlt).
    + intros Hge. rewrite get_after_set by done.
      by rewrite (proj2 (Z.ltb_ge _ _) Hge).
    + intros Hc calls Hcalls self''.
      assert (consistent (KVStorage.set self key value T t0)) as Hc'
        by by apply consistent_set.
      split.
      * intros Hge.
        destruct (gone_or_mortal_run_all calls _ key value _ Hc' Hcalls
                    (or_intror Hm)) as [Hgone|Hm'].
        -- by apply absent_get.
        -- subst self''. rewrite (mortal_get _ _ _ _ _ Hm').
           by rewrite (proj2 (Z.ltb_ge _ _) Hge).
      * intros Hev Hlt.
        assert (mortal self'' key value (KVStorage.getDeathTime_ T t0)) as Hm'.
        { apply mortal_run_all; [done| |done].
          apply Forall_and. done. }
        rewrite (mortal_get _ _ _ _ _ Hm').
        by rewrite (proj2 (Z.ltb_lt _ _) Hlt).
Qed.

Lemma get_available_iff_witness :
  let calls := [(op_removeOneExpiredEntry, 3); (op_set "b"%string "2"%string 1, 3);
                (op_get "a"%string, 9)] in
  let self' := run_all calls (KVStorage.set KVStorage.empty "a" "1" 5 0) in
  (KVStorage.get self' "a" 4).1 = Some "1"%string
  ∧ (KVStorage.get self' "a" 5).1 = None.
Proof.
  intros calls self'.
  assert (¬ (5 = 0)) as Hne by lia.
  assert (is_uint32 5) as H32 by (unfold is_uint32; lia).
  assert (Forall (λ c, ¬ writes "a" c.1) calls) as Hcalls.
  { subst calls. repeat constructor; by vm_compute. }
  pose proof (proj2 (proj2 (proj2 (proj2 (proj2
                (get_available_iff KVStorage.empty "a" 4))
                "1"%string 5 0 Hne H32))) consistent_empty calls Hcalls) as H4.
  pose proof (proj2 (proj2 (proj2 (proj2 (proj2
                (get_available_iff KVStorage.empty "a" 5))
                "1"%string 5 0 Hne H32))) consistent_empty calls Hcalls) as H5.
  cbv zeta in H4, H5. destruct H4 as [_ H4], H5 as [H5 _]. split.
  - apply H4.
    + subst calls. repeat constructor; vm_compute; by intros.
    + by vm_compute.
  - apply H5. vm_compute. by intros.
Defined.

(** C2 as worded fails at the last instant of the clock: a key set with
    ttl 0 is returned by [get] although its death time, the sentinel, is
    not strictly after the current time. *)
Lemma get_strictly_later_counterexample :
  let self := KVStorage.KVStorage [("a", "1", 0)]%string (λ _, 0) in
  let clk := 2 ^ 64 - 1 in
  is_uint64 clk
  ∧ KVStorage.kv_map_ self !! "a"%string
    = Some (timedKVMember.mk "1" maxTime_)
  ∧ (KVStorage.get self "a" clk).1 = Some "1"%string
  ∧ ¬ (to_uint64 clk < maxTime_)
  ∧ ¬ available_iff_strictly_later self "a" clk.
Proof.
  intros self clk.
  assert (KVStorage.kv_map_ self !! "a"%string
          = Some (timedKVMember.mk "1" maxTime_)) as Hmap by by vm_compute.
  assert ((KVStorage.get self "a" clk).1 = Some "1"%string) as Hget
    by by vm_compute.
  assert (¬ (to_uint64 clk < maxTime_)) as Hnot.
  { vm_compute. by intros [=]. }
  split_and!; [|done..|].
  - unfold is_uint64, clk. lia.
  - intros Hiff. apply Hiff in Hget as (member & Hm & _ & Hlt).
    rewrite Hmap in Hm. injection Hm as <-. by apply Hnot.
Qed.

(** * set on an existing key *)

(** C5. On an existing key, [set] replaces the value and the death time
    with the newly computed ones (the sentinel when ttl is 0, else the
    64-bit sum of the current time and ttl), whatever they were before;
    the pair the index held for the key is removed and a fresh pair is
    inserted only when ttl is not 0.  [set] is a total function: it has
    no failing path. *)
Theorem set_overwrites_unconditionally
    (self : KVStorage.t) (key value : string) (ttl clk : Z)
    (old : timedKVMember.t) :
  KVStorage.kv_map_ self !! key = Some old →
  let self' := KVStorage.set self key value ttl clk in
  let death := KVStorage.getDeathTime_ ttl clk in
  KVStorage.kv_map_ self' !! key = Some (timedKVMember.mk value death)
  ∧ (ttl = 0 → death = maxTime_)
  ∧ (ttl ≠ 0 → is_uint32 ttl →
       death = (to_uint64 clk + ttl) mod 2 ^ 64
       ∧ (is_uint64 clk → clk + ttl < 2 ^ 64 → death = clk + ttl))
  ∧ KVStorage.expiration_set_ self'
    = (if ttl =? 0 then ∅ else {[ timedSetMember.mk key death ]})
      ∪ (KVStorage.expiration_set_ self
         ∖ {[ timedSetMember.mk key (timedKVMember.death_time old) ]})
  ∧ (consistent self → ttl = 0 →
       ∀ e, e ∈ KVStorage.expiration_set_ self' →
            timedSetMember.map_key e ≠ key)
  ∧ (consistent self → ttl ≠ 0 →
       ∀ e, e ∈ KVStorage.expiration_set_ self' →
            timedSetMember.map_key e = key →
            e = timedSetMember.mk key death)
  ∧ (∀ k, k ≠ key →
       KVStorage.kv_map_ self' !! k = KVStorage.kv_map_ self !! k).
Proof.
  intros Hold self' death. subst self' death. split_and!.
  - apply set_lookup.
  - by intros ->.
  - intros Hne Httl. split.
    + by apply getDeathTime_nonzero.
    + intros. by apply getDeathTime_no_overflow.
  - rewrite set_unfold_eq. simpl. unfold without_key, set_erase.
    rewrite Hold. destruct (ttl =? 0); [|done].
    by rewrite (left_id_L ∅ (∪)).
  - intros Hc -> e. rewrite set_unfold_eq. simpl.
    intros He. by apply (elem_of_without_key _ _ _ Hc) in He as [_ ?].
  - intros Hc Hne e. rewrite set_unfold_eq. simpl.
    rewrite (proj2 (Z.eqb_neq ttl 0) Hne).
    intros [->%elem_of_singleton|He]%elem_of_union Hkey; [done|].
    by apply (elem_of_without_key _ _ _ Hc) in He as [_ ?].
  - intros k Hne. by apply set_lookup_ne.
Qed.

Lemma set_overwrites_unconditionally_witness :
  let self := KVStorage.set KVStorage.empty "b" "2" 0 0 in
  let self' := KVStorage.set self "b" "tagilla" 5 5 in
  KVStorage.kv_map_ self' !! "b"%string
    = Some (timedKVMember.mk "tagilla" 10)
  ∧ KVStorage.expiration_set_ self' = {[ timedSetMember.mk "b" 10 ]}.
Proof.
  intros self self'.
  pose proof (set_overwrites_unconditionally self "b" "tagilla" 5 5
                (timedKVMember.mk "2" maxTime_) ltac:(by vm_compute))
    as (Hmap & _ & _ & Hset & _).
  split.
  - exact Hmap.
  - subst self'. rewrite Hset. by vm_compute.
Defined.

(** * The death time of a finite ttl *)

(** C10. For every [set] with ttl above 0 the stored death time is the
    sum of the current time and ttl modulo 2^64, and the pair is in the
    expiration index.  When the sum reaches 2^64 it wraps to a death
    time before the current time, so the entry is expired at once; when
    the result is the value of the sentinel, the entry carries the
    sentinel and is in the expiration index all the same.  Both cases
    arise for every ttl. *)
Theorem set_death_time_modulo
    (self : KVStorage.t) (key value : string) (ttl clk : Z) :
  0 < ttl → is_uint32 ttl →
  let now := to_uint64 clk in
  let death := (now + ttl) mod 2 ^ 64 in
  let self' := KVStorage.set self key value ttl clk in
  KVStorage.kv_map_ self' !! key = Some (timedKVMember.mk value death)
  ∧ timedSetMember.mk key death ∈ KVStorage.expiration_set_ self'
  ∧ (2 ^ 64 <= now + ttl →
       death = now + ttl - 2 ^ 64
       ∧ death < now
       ∧ (KVStorage.get self' key clk).1 = None)
  ∧ (death = maxTime_ →
       now + ttl = 2 ^ 64 - 1
       ∧ KVStorage.kv_map_ self' !! key
         = Some (timedKVMember.mk value maxTime_)
       ∧ timedSetMember.mk key maxTime_ ∈ KVStorage.expiration_set_ self'
       ∧ (KVStorage.get self' key maxTime_).1 = None)
  ∧ (∃ t, is_uint64 t ∧ 2 ^ 64 <= t + ttl)
  ∧ (∃ t, is_uint64 t ∧ (t + ttl) mod 2 ^ 64 = maxTime_).
Proof.
  intros Hpos Httl now death self'.
  assert (ttl ≠ 0) as Hne by lia.
  assert (KVStorage.getDeathTime_ ttl clk = death) as Hdeath
    by by apply getDeathTime_nonzero.
  assert (KVStorage.kv_map_ self' !! key = Some (timedKVMember.mk value death))
    as Hmap.
  { subst self'. by rewrite set_lookup, Hdeath. }
  assert (timedSetMember.mk key death ∈ KVStorage.expiration_set_ self')
    as Hidx.
  { subst self'. rewrite <-Hdeath. by apply set_index_fresh. }
  pose proof (to_uint64_range clk) as [Hlo Hhi]. fold now in Hlo, Hhi.
  destruct Httl as [_ Httl].
  split_and!; [done..| | | |].
  - intros Hwrap.
    assert (death = now + ttl - 2 ^ 64) as Heq.
    { subst death. symmetry. apply (Z.mod_unique_pos _ _ 1); lia. }
    split_and!; [done|lia|].
    subst self'. rewrite get_after_set by done.
    rewrite Hdeath. fold now. by rewrite (proj2 (Z.ltb_ge _ _)) by lia.
  - intros Hmax.
    assert (now + ttl = 2 ^ 64 - 1) as Hsum.
    { destruct (Z.lt_ge_cases (now + ttl) (2 ^ 64)) as [Hfit|Hwrap].
      - subst death. rewrite Z.mod_small in Hmax by lia. done.
      - assert (death = now + ttl - 2 ^ 64) as Heq.
        { subst death. symmetry. apply (Z.mod_unique_pos _ _ 1); lia. }
        unfold maxTime_ in Hmax. lia. }
    split_and!; [done|by rewrite <-Hmax..|].
    subst self'. rewrite get_after_set by done.
    rewrite Hdeath, Hmax. by vm_compute.
  - exists (2 ^ 64 - 1). unfold is_uint64. lia.
  - exists (2 ^ 64 - 1 - ttl). unfold is_uint64, maxTime_.
    split; [lia|]. replace (2 ^ 64 - 1 - ttl + ttl) with (2 ^ 64 - 1) by lia.
    by vm_compute.
Qed.

Lemma set_death_time_modulo_witness :
  let wrapped := KVStorage.set KVStorage.empty "a" "1" 1 (2 ^ 64 - 1) in
  let collides := KVStorage.set KVStorage.empty "a" "1" 1 (2 ^ 64 - 2) in
  KVStorage.kv_map_ wrapped !! "a"%string = Some (timedKVMember.mk "1" 0)
  ∧ (KVStorage.get wrapped "a" (2 ^ 64 - 1)).1 = None
  ∧ timedSetMember.mk "a" maxTime_ ∈ KVStorage.expiration_set_ collides.
Proof.
  intros wrapped collides.
  pose proof (set_death_time_modulo KVStorage.empty "a" "1" 1 (2 ^ 64 - 1)
                ltac:(lia) ltac:(unfold is_uint32; lia))
    as (Hmap & _ & Hwrap & _).
  pose proof (set_death_time_modulo KVStorage.empty "a" "1" 1 (2 ^ 64 - 2)
                ltac:(lia) ltac:(unfold is_uint32; lia))
    as (_ & _ & _ & Hmax & _).
  split_and!.
  - exact Hmap.
  - apply Hwrap. by vm_compute.
  - apply Hmax. by vm_compute.
Defined.

(** * Keys set with ttl 0 *)

Section immortality.

Implicit Types self : KVStorage.t.

Lemma immortal_set_zero self key value clk :
  consistent self → immortal (KVStorage.set self key value 0 clk) key value.
Proof.
  intros Hc. split.
  - by rewrite set_lookup.
  - intros e. rewrite set_unfold_eq. simpl. intros He.
    by apply (elem_of_without_key _ _ _ Hc) in He as [_ ?].
Qed.

Lemma immortal_get self key value clk :
  immortal self key value → (KVStorage.get self key clk).1 = Some value.
Proof.
  intros [Hmap Hidx]. apply get_Some_iff.
  exists (timedKVMember.mk value maxTime_). split_and!; [done..|].
  right. intros Hin. by apply Hidx in Hin.
Qed.

Lemma immortal_remove self key value k :
  consistent self → k ≠ key →
  immortal self key value → immortal (KVStorage.remove self k).2 key value.
Proof.
  intros Hc Hne [Hmap Hidx]. split.
  - by rewrite remove_lookup_ne.
  - intros e He. apply (remove_index _ _ _ Hc) in He as [He _]. by apply Hidx.
Qed.

Lemma immortal_run self key value o clk :
  consistent self → ¬ writes key o →
  immortal self key value → immortal (run o clk self) key value.
Proof.
  intros Hc Hw Him. pose proof Him as [Hmap Hidx].
  destruct o as [k v ttl|k|k|k n|]; cbn [run writes] in *.
  - split.
    + by rewrite set_lookup_ne.
    + intros e. rewrite set_unfold_eq. simpl. intros He.
      assert (e = timedSetMember.mk k (KVStorage.getDeathTime_ ttl clk)
              ∨ e ∈ without_key self k) as [->|Hin].
      { destruct (ttl =? 0); [by right|].
        apply elem_of_union in He as [->%elem_of_singleton|?]; auto. }
      * done.
      * apply (elem_of_without_key _ _ _ Hc) in Hin as [Hin _]. by apply Hidx.
  - by apply immortal_remove.
  - by rewrite get_state.
  - by rewrite getManySorted_state.
  - destruct (removeOneExpiredEntry_state self clk Hc)
      as [->|(first & Hin & _ & ->)]; [done|].
    apply immortal_remove; [done| |done]. by apply Hidx.
Qed.

Lemma immortal_run_all calls self key value :
  consistent self → Forall (λ c, ¬ writes key c.1) calls →
  immortal self key value → immortal (run_all calls self) key value.
Proof.
  intros Hc Hcalls. revert self Hc.
  induction Hcalls as [|[o clk] calls Ho _ IH]; intros self Hc Him; [done|].
  apply IH.
  - by apply consistent_run.
  - by apply immortal_run.
Qed.

End immortality.

(** C6. A key set with ttl 0 is returned by [get] at every current
    time, the largest 64-bit value included (where the stored death time,
    the sentinel, equals the current time), for as long as no call
    removes or sets the key again. *)
Theorem ttl_zero_always_available
    (self : KVStorage.t) (key value : string) (clk0 : Z)
    (calls : list (operation * Z)) :
  consistent self →
  Forall (λ c, ¬ writes key c.1) calls →
  let self' := run_all calls (KVStorage.set self key value 0 clk0) in
  KVStorage.kv_map_ self' !! key = Some (timedKVMember.mk value maxTime_)
  ∧ (∀ clk, (KVStorage.get self' key clk).1 = Some value)
  ∧ to_uint64 maxTime_ = maxTime_
  ∧ (KVStorage.get self' key maxTime_).1 = Some value.
Proof.
  intros Hc Hcalls self'.
  assert (immortal self' key value) as Him.
  { apply immortal_run_all; [by apply consistent_set|done|].
    by apply immortal_set_zero. }
  split_and!.
  - by destruct Him.
  - intros clk. by apply immortal_get.
  - by vm_compute.
  - by apply immortal_get.
Qed.

Lemma ttl_zero_always_available_witness :
  let calls :=
    [(op_set "a"%string "1"%string 1, 0); (op_get "b"%string, 3);
     (op_removeOneExpiredEntry, 2 ^ 64 - 1); (op_remove "a"%string, 4)] in
  (KVStorage.get
     (run_all calls (KVStorage.set KVStorage.empty "b" "2" 0 0))
     "b" (2 ^ 64 - 1)).1 = Some "2"%string.
Proof.
  intros calls.
  refine (proj2 (proj2 (proj2
    (ttl_zero_always_available KVStorage.empty "b" "2" 0 calls _ _)))).
  - apply consistent_empty.
  - subst calls. repeat constructor; by vm_compute.
Defined.

(** * removeOneExpiredEntry *)

Section eviction.

Implicit Types self : KVStorage.t.

Lemma set_begin_is_minimum (index : gset timedSetMember.t) first :
  set_begin index = Some first ↔ is_minimum first index.
Proof.
  unfold is_minimum. split.
  - intros Hb. apply set_begin_Some in Hb as [Hin Hmin].
    split; [done|]. intros e He. by apply not_after_comparator, Hmin.
  - intros [Hin Hmin].
    destruct (set_begin index) as [b|] eqn:Hb.
    + apply set_begin_Some in Hb as [Hbin Hbmin]. f_equal.
      apply (anti_symm (not_after timedSetComparator)).
      * by apply Hbmin.
      * by apply not_after_comparator, Hmin.
    + apply set_begin_None in Hb. subst. by apply not_elem_of_empty in Hin.
Qed.

Lemma drain_absent self clk n :
  (KVStorage.removeOneExpiredEntry self clk).1 = None →
  drain n self clk = ([], self).
Proof.
  intros Hnone. destruct n as [|n]; [done|]. simpl.
  pose proof (removeOneExpiredEntry_absent_state _ _ Hnone) as Hstate.
  destruct (KVStorage.removeOneExpiredEntry self clk) as [[entry|] self1];
    simpl in *; [done|]. by subst.
Qed.

Lemma index_sorted_by_death_time (b : timedSetMember.t) l :
  StronglySorted (not_after timedSetComparator) (b :: l) →
  Forall (λ e, timedSetMember.death_time b <= timedSetMember.death_time e) l.
Proof.
  intros [_ Hall]%StronglySorted_inv.
  eapply Forall_impl; [done|]. intros e He. simpl in He.
  apply not_after_comparator in He. lia.
Qed.

(** The calls return the pairs that are due, in the order of the
    index, and the call after them returns nothing. *)
Lemma drain_in_order clk l :
  ∀ self n,
    consistent self →
    set_in_order (KVStorage.expiration_set_ self) = l →
    (length (filter (λ e, (timedSetMember.death_time e <= to_uint64 clk)%Z) l)
     ≤ n)%nat →
    (drain n self clk).1
    = evicted_entry (KVStorage.kv_map_ self)
        <$> filter (λ e, timedSetMember.death_time e <= to_uint64 clk) l
    ∧ (KVStorage.removeOneExpiredEntry (drain n self clk).2 clk).1 = None
    ∧ ∀ e, e ∈ KVStorage.expiration_set_ (drain n self clk).2 ↔
           e ∈ KVStorage.expiration_set_ self
           ∧ to_uint64 clk < timedSetMember.death_time e.
Proof.
  induction l as [|b l IH]; intros self n Hc Hl Hn.
  - assert ((KVStorage.removeOneExpiredEntry self clk).1 = None) as Hnone.
    { apply removeOneExpiredEntry_absent. left.
      unfold set_begin. by rewrite Hl. }
    rewrite drain_absent by done. cbn [fst snd]. split_and!; [done..|].
    intros e. rewrite <-elem_of_set_in_order, Hl.
    split; [by intros ?%not_elem_of_nil | naive_solver].
  - assert (set_begin (KVStorage.expiration_set_ self) = Some b) as Hb.
    { unfold set_begin. by rewrite Hl. }
    pose proof (set_in_order_sorted (KVStorage.expiration_set_ self))
      as Hsorted.
    pose proof (set_in_order_NoDup (KVStorage.expiration_set_ self)) as Hnd.
    rewrite Hl in Hsorted, Hnd.
    pose proof (index_sorted_by_death_time _ _ Hsorted) as Hlater.
    destruct (Z.lt_ge_cases (to_uint64 clk) (timedSetMember.death_time b))
      as [Hlive|Hdue].
    + assert ((KVStorage.removeOneExpiredEntry self clk).1 = None) as Hnone.
      { apply removeOneExpiredEntry_absent. eauto. }
      rewrite drain_absent by done. cbn [fst snd].
      assert (filter (λ e, timedSetMember.death_time e <= to_uint64 clk)
                     (b :: l) = []) as ->.
      { rewrite filter_cons_False by lia.
        clear -Hlater Hlive. induction Hlater as [|e l He _ IHl]; [done|].
        rewrite filter_cons_False by lia. done. }
      split_and!; [done..|].
      intros e. split; [|naive_solver]. intros He. split; [done|].
      apply elem_of_set_in_order in He. rewrite Hl in He.
      apply elem_of_cons in He as [->|He]; [done|].
      eapply Forall_forall in Hlater; [|done]. simpl in Hlater. lia.
    + destruct (removeOneExpiredEntry_evicts _ clk _ Hc Hb Hdue)
        as (v & Hv & Heq & _).
      rewrite filter_cons_True in Hn |- * by done.
      destruct n as [|n]; [simpl in Hn; lia|].
      pose proof (consistent_removeOneExpiredEntry self clk Hc) as Hc1.
      simpl. rewrite Heq in Hc1 |- *. simpl in Hc1.
      pose proof (set_in_order_erase_begin _ _ Hb) as Herase.
      rewrite Hl in Herase. injection Herase as Herase.
      destruct (IH _ n Hc1 (eq_sym Herase)) as (Hres & Hnone & Hidx).
      { simpl in Hn. lia. }
      destruct (drain n _ clk) as [entries self2]. simpl in *.
      split_and!; [|done|].
      * rewrite Hres. f_equal.
        { unfold evicted_entry. by rewrite Hv. }
        apply Forall_fmap_ext_1, Forall_forall. intros e He.
        apply list_elem_of_filter in He as [_ He].
        unfold evicted_entry. rewrite lookup_delete_ne; [done|].
        intros Hkey.
        assert (b = e) as <-.
        { destruct Hc as (_ & _ & HI2). apply HI2; [| |done].
          - apply elem_of_set_in_order. rewrite Hl. left.
          - apply elem_of_set_in_order. rewrite Hl. by right. }
        by apply NoDup_cons in Hnd as [? _].
      * intros e. rewrite Hidx. unfold set_erase.
        rewrite elem_of_difference, elem_of_singleton.
        split; [naive_solver|]. intros [He Hlt].
        split_and!; [done| |done]. intros ->. lia.
Qed.

End eviction.

Section eviction_order.

Implicit Types self : KVStorage.t.

Lemma StronglySorted_impl {A} (R1 R2 : relation A) (l : list A) :
  (∀ x y, R1 x y → R2 x y) → StronglySorted R1 l → StronglySorted R2 l .
Proof.
  intros HR. induction 1 as [|x l _ IH Hall]; constructor; [done|].
  eapply Forall_impl; [done|]. auto.
Qed.

Lemma elem_of_due self clk e :
  e ∈ filter (λ e, timedSetMember.death_time e <= to_uint64 clk)
             (set_in_order (KVStorage.expiration_set_ self)) ↔
  e ∈ KVStorage.expiration_set_ self
  ∧ timedSetMember.death_time e <= to_uint64 clk.
Proof. rewrite list_elem_of_filter, elem_of_set_in_order. naive_solver. Qed.

(** The entries the calls return are the keys that are in the map and
    that [get] does not return. *)
Lemma elem_of_evicted self clk k v :
  consistent self →
  (k, v) ∈ evicted_entry (KVStorage.kv_map_ self)
             <$> filter (λ e, timedSetMember.death_time e <= to_uint64 clk)
                   (set_in_order (KVStorage.expiration_set_ self)) ↔
  ∃ member,
    KVStorage.kv_map_ self !! k = Some member
    ∧ timedKVMember.value member = v
    ∧ (KVStorage.get self k clk).1 = None.
Proof.
  intros (Hidx & _ & _). rewrite list_elem_of_fmap. split.
  - intros (e & Heq & He). apply elem_of_due in He as [He Hdue].
    destruct (Hidx _ He) as [v' Hv']. unfold evicted_entry in Heq.
    rewrite Hv' in Heq. simplify_eq/=.
    eexists. split_and!; [done..|].
    apply get_None_iff. intros m Hm. rewrite Hv' in Hm. simplify_eq/=.
    split; [done|]. by destruct e.
  - intros (member & Hk & <- & Hnone).
    destruct (proj1 (get_None_iff _ _ _) Hnone _ Hk) as [Hdue Hin].
    exists (timedSetMember.mk k (timedKVMember.death_time member)). split.
    + unfold evicted_entry. simpl. by rewrite Hk.
    + by apply elem_of_due.
Qed.

End eviction_order.

(** C3. [removeOneExpiredEntry] returns nothing, and leaves the store
    as it is, exactly when the expiration index is empty or its smallest
    death time is strictly after the current time; otherwise it removes
    the entry with the smallest (death time, key) pair from both
    structures and returns its key and value.  Repeated calls at one
    current time return every entry that is expired at that time once,
    by ascending (death time, key), and no entry that is not expired;
    the call after them returns nothing. *)
Theorem removeOneExpiredEntry_drains (self : KVStorage.t) (clk : Z) :
  consistent self →
  let now := to_uint64 clk in
  let index := KVStorage.expiration_set_ self in
  ((KVStorage.removeOneExpiredEntry self clk).1 = None ↔
     index = ∅
     ∨ ∃ first, is_minimum first index
                ∧ now < timedSetMember.death_time first)
  ∧ ((KVStorage.removeOneExpiredEntry self clk).1 = None →
       (KVStorage.removeOneExpiredEntry self clk).2 = self)
  ∧ (∀ first,
       is_minimum first index → timedSetMember.death_time first <= now →
       ∃ v,
         KVStorage.kv_map_ self !! timedSetMember.map_key first
         = Some (timedKVMember.mk v (timedSetMember.death_time first))
         ∧ KVStorage.removeOneExpiredEntry self clk
           = (Some (timedSetMember.map_key first, v),
              KVStorage.mk
                (delete (timedSetMember.map_key first) (KVStorage.kv_map_ self))
                (index ∖ {[ first ]})))
  ∧ (∀ n,
       let due := filter (λ e, timedSetMember.death_time e <= now)
                         (set_in_order index) in
       (length due ≤ n)%nat →
       let entries := (drain n self clk).1 in
       let self' := (drain n self clk).2 in
       entries = evicted_entry (KVStorage.kv_map_ self) <$> due
       ∧ StronglySorted index_le due
       ∧ (∀ e, e ∈ due ↔ e ∈ index ∧ timedSetMember.death_time e <= now)
       ∧ NoDup entries.*1
       ∧ (∀ k v, (k, v) ∈ entries ↔
            ∃ member,
              KVStorage.kv_map_ self !! k = Some member
              ∧ timedKVMember.value member = v
              ∧ (KVStorage.get self k clk).1 = None)
       ∧ (KVStorage.removeOneExpiredEntry self' clk).1 = None
       ∧ (∀ e, e ∈ KVStorage.expiration_set_ self' ↔
               e ∈ index ∧ now < timedSetMember.death_time e)).
Proof.
  intros Hc now index. split_and!.
  - rewrite removeOneExpiredEntry_absent, set_begin_None.
    by setoid_rewrite set_begin_is_minimum.
  - apply removeOneExpiredEntry_absent_state.
  - intros first Hmin Hdue. apply set_begin_is_minimum in Hmin.
    destruct (removeOneExpiredEntry_evicts _ clk _ Hc Hmin Hdue)
      as (v & Hv & Heq & _).
    exists v. split; [done|]. by rewrite Heq.
  - intros n due Hn entries self'.
    destruct (drain_in_order clk _ self n Hc eq_refl Hn)
      as (Hres & Hnone & Hidx).
    assert (NoDup due) as Hnd by apply NoDup_filter, set_in_order_NoDup.
    split_and!; [done| | | | |done|done].
    + eapply StronglySorted_sublist; [apply sublist_filter|].
      eapply StronglySorted_impl; [|apply set_in_order_sorted].
      intros x y. apply not_after_comparator.
    + intros e. apply elem_of_due.
    + subst entries. rewrite Hres, <-list_fmap_compose.
      apply NoDup_fmap_2_strong; [|done].
      intros x y Hx%elem_of_due Hy%elem_of_due Hkey.
      destruct Hc as (_ & _ & HI2). apply HI2; naive_solver.
    + intros k v. subst entries. rewrite Hres. by apply elem_of_evicted.
Qed.

Lemma removeOneExpiredEntry_drains_witness :
  let self := KVStorage.KVStorage
                [("c", "gm", 2); ("a", "gm", 2); ("b", "gm", 2);
                 ("d", "late", 9); ("e", "ever", 0)]%string (λ _, 0) in
  (drain 3 self 2).1 = [("a", "gm"); ("b", "gm"); ("c", "gm")]%string
  ∧ (KVStorage.removeOneExpiredEntry (drain 3 self 2).2 2).1 = None.
Proof.
  intros self.
  pose proof (removeOneExpiredEntry_drains self 2
                (consistent_KVStorage _ _)) as (_ & _ & _ & Hdrain).
  destruct (Hdrain 3%nat) as (Hres & _ & _ & _ & _ & Hnone & _).
  { vm_compute. lia. }
  split.
  - rewrite Hres. by vm_compute.
  - exact Hnone.
Defined.

(** * The constructor *)

Section construction.

Implicit Types self : KVStorage.t.
Implicit Types entries : list (string * string * Z).

Lemma foldl_set_apply entries (clock_ : nat → Z) i self :
  (foldl (λ '(s, i) '(key, value, ttl),
            (KVStorage.set s key value ttl (clock_ i), S i))
         (self, i) entries).1
  = apply_sets_in_order entries clock_ i self.
Proof.
  revert self i.
  induction entries as [|[[key value] ttl] entries IH]; intros self i; [done|].
  simpl. apply IH.
Qed.

Lemma apply_sets_app entries1 entries2 (clock_ : nat → Z) i self :
  apply_sets_in_order (entries1 ++ entries2) clock_ i self
  = apply_sets_in_order entries2 clock_ (i + length entries1)
      (apply_sets_in_order entries1 clock_ i self).
Proof.
  revert self i.
  induction entries1 as [|[[key value] ttl] entries1 IH]; intros self i.
  - simpl. by rewrite Nat.add_0_r.
  - simpl. rewrite IH. f_equal. lia.
Qed.

Lemma consistent_apply_sets entries (clock_ : nat → Z) i self :
  consistent self → consistent (apply_sets_in_order entries clock_ i self).
Proof. rewrite <-foldl_set_apply. apply consistent_foldl_set. Qed.

(** The loop as the calls of a client. *)
Lemma apply_sets_run_all entries (clock_ : nat → Z) i self :
  apply_sets_in_order entries clock_ i self
  = run_all (set_calls entries (λ j, clock_ (i + j)%nat)) self.
Proof.
  revert self i.
  induction entries as [|[[key value] ttl] entries IH]; intros self i; [done|].
  unfold set_calls. rewrite imap_cons. cbn [apply_sets_in_order].
  rewrite IH. unfold run_all, set_calls. cbn [foldl run].
  rewrite Nat.add_0_r. f_equal.
  apply imap_ext. intros j [[k v] t] _. simpl. do 2 f_equal. lia.
Qed.

Lemma apply_sets_other entries (clock_ : nat → Z) i self key :
  consistent self →
  Forall (λ entry, entry_key entry ≠ key) entries →
  KVStorage.kv_map_ (apply_sets_in_order entries clock_ i self) !! key
  = KVStorage.kv_map_ self !! key
  ∧ ∀ e, timedSetMember.map_key e = key →
      (e ∈ KVStorage.expiration_set_ (apply_sets_in_order entries clock_ i self)
       ↔ e ∈ KVStorage.expiration_set_ self).
Proof.
  intros Hc Hentries. revert self i Hc.
  induction Hentries as [|[[k value] ttl] entries Hk _ IH]; intros self i Hc;
    [done|].
  unfold entry_key in Hk. simpl in *.
  destruct (IH (KVStorage.set self k value ttl (clock_ i)) (S i))
    as [Hmap Hidx].
  { by apply consistent_set. }
  split.
  - by rewrite Hmap, set_lookup_ne.
  - intros e He. rewrite (Hidx e He). apply set_index_ne; [done|congruence].
Qed.

End construction.

(** C8. The constructor yields the state reached from the empty store
    by [set] on each triple in input order, each [set] reading the clock
    at its turn: the state a client reaches with these calls of [set].
    For a key that occurs more than once the last triple decides the
    stored value and the death time, computed from the clock value of
    that triple's [set] (and whether the key has a pair in the index);
    a key of no triple is not in the store. *)
Theorem constructor_is_sets_in_order
    (entries : list (string * string * Z)) (clock_ : nat → Z) :
  KVStorage.KVStorage entries clock_
  = apply_sets_in_order entries clock_ 0 KVStorage.empty
  ∧ KVStorage.KVStorage entries clock_
    = run_all (set_calls entries clock_) KVStorage.empty
  ∧ (∀ earlier key value ttl later,
       entries = earlier ++ (key, value, ttl) :: later →
       Forall (λ entry, entry_key entry ≠ key) later →
       let death := KVStorage.getDeathTime_ ttl (clock_ (length earlier)) in
       KVStorage.kv_map_ (KVStorage.KVStorage entries clock_) !! key
       = Some (timedKVMember.mk value death)
       ∧ (∀ e, timedSetMember.map_key e = key →
            (e ∈ KVStorage.expiration_set_ (KVStorage.KVStorage entries clock_)
             ↔ ttl ≠ 0 ∧ e = timedSetMember.mk key death)))
  ∧ (∀ key,
       Forall (λ entry, entry_key entry ≠ key) entries →
       KVStorage.kv_map_ (KVStorage.KVStorage entries clock_) !! key = None).
Proof.
  assert (KVStorage.KVStorage entries clock_
          = apply_sets_in_order entries clock_ 0 KVStorage.empty) as Hctor.
  { unfold KVStorage.KVStorage. apply foldl_set_apply. }
  split_and!; [done| | |].
  - rewrite Hctor, apply_sets_run_all. f_equal.
  - intros earlier key value ttl later -> Hlater death.
    rewrite Hctor, apply_sets_app. cbn [apply_sets_in_order]. rewrite Nat.add_0_l.
    set (before := apply_sets_in_order earlier clock_ 0 KVStorage.empty).
    assert (consistent before) as Hc
      by apply consistent_apply_sets, consistent_empty.
    destruct (apply_sets_other later clock_ (S (length earlier))
                (KVStorage.set before key value ttl (clock_ (length earlier)))
                key) as [Hmap Hidx];
      [by apply consistent_set|done|].
    split.
    + by rewrite Hmap, set_lookup.
    + intros e He. rewrite (Hidx e He), set_unfold_eq. simpl.
      destruct (Z.eqb_spec ttl 0) as [->|Hne].
      * rewrite (elem_of_without_key _ _ _ Hc). naive_solver.
      * rewrite elem_of_union, elem_of_singleton,
          (elem_of_without_key _ _ _ Hc). naive_solver.
  - intros key Hkey. rewrite Hctor.
    destruct (apply_sets_other entries clock_ 0 KVStorage.empty key) as [-> _];
      [apply consistent_empty|done|done].
Qed.

Lemma constructor_is_sets_in_order_witness :
  let entries := [("a", "1", 0); ("b", "2", 7); ("a", "3", 5)]%string in
  let clock_ := λ i : nat, 10 + Z.of_nat i in
  KVStorage.kv_map_ (KVStorage.KVStorage entries clock_) !! "a"%string
  = Some (timedKVMember.mk "3" 17).
Proof.
  intros entries clock_.
  refine (proj1 (proj1 (proj2 (proj2
            (constructor_is_sets_in_order entries clock_)))
            [("a", "1", 0); ("b", "2", 7)]%string "a"%string "3"%string 5 []
            _ _)).
  - done.
  - constructor.
Defined.

(** * The invariant of the specification *)

(** C1, as the code has it.  The constructor establishes and every call
    preserves: each pair of the expiration index names a key of the
    primary map with that death time; each key of the primary map whose
    death time is not the sentinel has its pair in the index; the index
    has at most one pair per key.  As long as no pair of the index
    carries the sentinel, this is the equivalence the specification
    states. *)
Theorem consistency_preserved :
  (∀ entries clock_, consistent (KVStorage.KVStorage entries clock_))
  ∧ (∀ self o clk, consistent self → consistent (run o clk self))
  ∧ (∀ self calls, consistent self → consistent (run_all calls self))
  ∧ (∀ self, consistent self →
       (∀ e, e ∈ KVStorage.expiration_set_ self →
             timedSetMember.death_time e ≠ maxTime_) →
       I1 self ∧ I2 self).
Proof.
  split_and!.
  - apply consistent_KVStorage.
  - intros. by apply consistent_run.
  - intros. by apply consistent_run_all.
  - intros self (Hidx & Hfin & HI2) Hnomax. split; [|done].
    intros k t. split.
    + intros [[v Hv] Hne]. by apply (Hfin _ _ Hv).
    + intros He. split; [by apply (Hidx _ He) | by apply (Hnomax _ He)].
Qed.

Lemma consistency_preserved_witness :
  consistent
    (run op_removeOneExpiredEntry 9
       (KVStorage.KVStorage [("a", "1", 0); ("b", "2", 7)]%string (λ _, 1))).
Proof.
  apply (proj1 (proj2 consistency_preserved)).
  apply (proj1 consistency_preserved).
Defined.

(** C1 as worded fails when the death time of a finite ttl is the value
    of the sentinel: the index then holds a pair for a key whose death
    time is not finite. *)
Lemma I1_sentinel_counterexample :
  let self := KVStorage.set KVStorage.empty "a" "v" 1 (2 ^ 64 - 2) in
  is_uint32 1 ∧ is_uint64 (2 ^ 64 - 2)
  ∧ I1 KVStorage.empty
  ∧ timedSetMember.mk "a" maxTime_ ∈ KVStorage.expiration_set_ self
  ∧ ¬ I1 self.
Proof.
  intros self.
  assert (timedSetMember.mk "a" maxTime_ ∈ KVStorage.expiration_set_ self)
    as Hin.
  { subst self. rewrite set_unfold_eq. simpl. set_solver. }
  split_and!.
  - unfold is_uint32. lia.
  - unfold is_uint64. lia.
  - intros k t. simpl. rewrite lookup_empty. split.
    + by intros [[v [=]] _].
    + by intros ?%not_elem_of_empty.
  - done.
  - intros HI1. apply HI1 in Hin as [_ Hne]. done.
Qed.

(** * Further properties of the code *)

(** ** The comparator of the expiration set *)

(** [timedSetComparator] is a strict total order on the pairs: no pair
    is before itself, the order is transitive and asymmetric, two
    different pairs are ordered one way or the other, and two pairs are
    equivalent for the set only when key and death time are both equal,
    so keys with one death time do not displace each other. *)
Theorem timedSetComparator_strict_total_order :
  (∀ a, timedSetComparator a a = false)
  ∧ (∀ a b c, timedSetComparator a b = true → timedSetComparator b c = true →
              timedSetComparator a c = true)
  ∧ (∀ a b, timedSetComparator a b = true → timedSetComparator b a = false)
  ∧ (∀ a b, a ≠ b → timedSetComparator a b = true ∨ timedSetComparator b a = true)
  ∧ (∀ a b, equivalent a b = true ↔ a = b).
Proof.
  assert (∀ a b, timedSetComparator a b = true ↔
                 ¬ not_after timedSetComparator b a) as Hlt.
  { intros a b. unfold not_after. destruct (timedSetComparator a b); naive_solver. }
  split_and!.
  - intros a. apply (reflexivity (R := not_after timedSetComparator)).
  - intros a b c. rewrite !Hlt. intros Hab Hbc Hca.
    destruct (total (not_after timedSetComparator) a b) as [Hab'|?]; [|done].
    apply Hbc. by trans a.
  - intros a b. rewrite Hlt. intros Hab.
    destruct (total (not_after timedSetComparator) a b) as [Hab'|?]; done.
  - intros a b Hne.
    destruct (timedSetComparator a b) eqn:Eab; [by left|right].
    apply Hlt. intros Hab. apply Hne.
    by apply (anti_symm (not_after timedSetComparator)).
  - apply equivalent_eq.
Qed.

(** ** tryToRemoveFromSet and its precondition *)

(** On a key of the map [tryToRemoveFromSet] leaves the map alone and
    erases the pair of the key and its recorded death time.  On a key
    that is not in the map, the case its comment rules out, [operator[]]
    inserts a value-initialised member under the key, and the store is
    no longer consistent. *)
Theorem tryToRemoveFromSet_needs_key (self : KVStorage.t) (key : string) :
  (∀ member, KVStorage.kv_map_ self !! key = Some member →
     KVStorage.tryToRemoveFromSet self key
     = KVStorage.mk (KVStorage.kv_map_ self)
         (KVStorage.expiration_set_ self
          ∖ {[ timedSetMember.mk key (timedKVMember.death_time member) ]}))
  ∧ (KVStorage.kv_map_ self !! key = None →
     KVStorage.tryToRemoveFromSet self key
     = KVStorage.mk
         (<[key := timedKVMember.mk "" 0]> (KVStorage.kv_map_ self))
         (KVStorage.expiration_set_ self ∖ {[ timedSetMember.mk key 0 ]})
     ∧ ¬ consistent (KVStorage.tryToRemoveFromSet self key)).
Proof.
  split.
  - intros member Hkey. by rewrite (tryToRemoveFromSet_Some _ _ _ Hkey).
  - intros Hkey.
    assert (KVStorage.tryToRemoveFromSet self key
            = KVStorage.mk
                (<[key := timedKVMember.mk "" 0]> (KVStorage.kv_map_ self))
                (KVStorage.expiration_set_ self ∖ {[ timedSetMember.mk key 0 ]}))
      as Heq.
    { unfold KVStorage.tryToRemoveFromSet, map_subscript. rewrite Hkey.
      rewrite set_find_decide. simpl. case_decide; [done|].
      f_equal. symmetry. by apply set_erase_absent. }
    split; [done|]. rewrite Heq. intros (_ & Hfin & _).
    specialize (Hfin key (timedKVMember.mk "" 0)). simpl in Hfin.
    rewrite lookup_insert_eq in Hfin.
    assert (0 ≠ maxTime_) as Hne by (unfold maxTime_; lia).
    specialize (Hfin eq_refl Hne).
    apply elem_of_difference in Hfin as [_ Hfin]. apply Hfin.
    by apply elem_of_singleton.
Qed.

Lemma tryToRemoveFromSet_needs_key_witness :
  KVStorage.tryToRemoveFromSet (KVStorage.set KVStorage.empty "a" "1" 5 0) "a"
  = KVStorage.mk {[ "a"%string := timedKVMember.mk "1" 5 ]} ∅
  ∧ ¬ consistent (KVStorage.tryToRemoveFromSet KVStorage.empty "a").
Proof.
  split.
  - pose proof (proj1 (tryToRemoveFromSet_needs_key
                         (KVStorage.set KVStorage.empty "a" "1" 5 0) "a")
                  (timedKVMember.mk "1" 5)) as Hsome.
    rewrite Hsome; by vm_compute.
  - apply (proj2 (tryToRemoveFromSet_needs_key KVStorage.empty "a")).
    by vm_compute.
Defined.

(** ** What one call does to the other keys *)

Section frames.

Implicit Types self : KVStorage.t.

(** [get] looks at the member of the key and at the pairs of the key,
    and at nothing else. *)
Lemma get_ext self1 self2 key clk :
  KVStorage.kv_map_ self1 !! key = KVStorage.kv_map_ self2 !! key →
  (∀ e, timedSetMember.map_key e = key →
        (e ∈ KVStorage.expiration_set_ self1
         ↔ e ∈ KVStorage.expiration_set_ self2)) →
  (KVStorage.get self1 key clk).1 = (KVStorage.get self2 key clk).1.
Proof.
  intros Hmap Hidx.
  rewrite !get_unfold_eq, !keyAvailable_unfold_eq, Hmap.
  destruct (KVStorage.kv_map_ self2 !! key) as [member|]; [|done]. simpl.
  specialize (Hidx (timedSetMember.mk key (timedKVMember.death_time member))
                   eq_refl).
  repeat case_decide; tauto.
Qed.

Lemma get_set_ne self key value ttl clk0 k clk :
  consistent self → k ≠ key →
  (KVStorage.get (KVStorage.set self key value ttl clk0) k clk).1
  = (KVStorage.get self k clk).1.
Proof.
  intros Hc Hne. apply get_ext.
  - by apply set_lookup_ne.
  - intros e He. apply set_index_ne; [done|congruence].
Qed.

Lemma get_remove_ne self key k clk :
  consistent self → k ≠ key →
  (KVStorage.get (KVStorage.remove self key).2 k clk).1
  = (KVStorage.get self k clk).1.
Proof.
  intros Hc Hne. apply get_ext.
  - by apply remove_lookup_ne.
  - intros e He. rewrite (remove_index _ _ _ Hc). split; [naive_solver|].
    intros ?. split; [done|congruence].
Qed.

End frames.

(** Only [set] adds a key: after [set] the keys of the map are the old
    ones and the key set; after [remove] the old ones but the key
    removed; [get] and [getManySorted] keep them as they are; after
    [removeOneExpiredEntry] they are among the old ones. *)
Theorem keys_after_call (self : KVStorage.t) (o : operation) (clk : Z) :
  consistent self →
  match o with
  | op_set key _ _ =>
      dom (KVStorage.kv_map_ (run o clk self))
      = {[ key ]} ∪ dom (KVStorage.kv_map_ self)
  | op_remove key =>
      dom (KVStorage.kv_map_ (run o clk self))
      = dom (KVStorage.kv_map_ self) ∖ {[ key ]}
  | op_get _ | op_getManySorted _ _ =>
      dom (KVStorage.kv_map_ (run o clk self)) = dom (KVStorage.kv_map_ self)
  | op_removeOneExpiredEntry =>
      dom (KVStorage.kv_map_ (run o clk self)) ⊆ dom (KVStorage.kv_map_ self)
  end.
Proof.
  intros Hc.
  assert (∀ k, dom (KVStorage.kv_map_ (KVStorage.remove self k).2)
               = dom (KVStorage.kv_map_ self) ∖ {[ k ]}) as Hremove.
  { intros k. rewrite remove_unfold_eq.
    destruct (KVStorage.kv_map_ self !! k) eqn:Hk; simpl.
    - apply dom_delete_L.
    - apply not_elem_of_dom in Hk. set_solver. }
  destruct o as [k v ttl|k|k|k n|]; cbn [run].
  - rewrite set_unfold_eq. simpl. apply dom_insert_L.
  - apply Hremove.
  - by rewrite get_state.
  - by rewrite getManySorted_state.
  - destruct (removeOneExpiredEntry_state self clk Hc)
      as [->|(first & _ & _ & ->)]; [done|].
    rewrite Hremove. set_solver.
Qed.

Lemma keys_after_call_witness :
  dom (KVStorage.kv_map_
         (run op_removeOneExpiredEntry 9
            (KVStorage.KVStorage [("a", "1", 0); ("b", "2", 7)]%string (λ _, 1))))
  ⊆ dom (KVStorage.kv_map_
           (KVStorage.KVStorage [("a", "1", 0); ("b", "2", 7)]%string (λ _, 1))).
Proof.
  apply (keys_after_call _ op_removeOneExpiredEntry 9).
  apply consistent_KVStorage.
Defined.

(** A key that is not in the map: [get] returns nothing and [remove]
    returns false, both leaving the store as it is, and no
    [getManySorted] lists it. *)
Theorem missing_key (self : KVStorage.t) (key : string) :
  KVStorage.kv_map_ self !! key = None →
  (∀ clk, KVStorage.get self key clk = (None, self))
  ∧ KVStorage.remove self key = (false, self)
  ∧ (∀ start count clk v, 0 <= count →
       (key, v) ∉ (KVStorage.getManySorted self start count clk).1).
Proof.
  intros Hkey. split_and!.
  - intros clk. rewrite get_unfold_eq. by rewrite Hkey.
  - rewrite remove_unfold_eq. by rewrite Hkey.
  - intros start count clk v Hcount Hin.
    apply elem_of_getManySorted in Hin as (member & Hm & _); [|done].
    congruence.
Qed.

Lemma missing_key_witness :
  KVStorage.remove (KVStorage.KVStorage [("a", "1", 0)]%string (λ _, 0)) "c"
  = (false, KVStorage.KVStorage [("a", "1", 0)]%string (λ _, 0)).
Proof.
  assert (KVStorage.kv_map_ (KVStorage.KVStorage [("a", "1", 0)]%string (λ _, 0))
            !! "c"%string = None) as Hkey by by vm_compute.
  apply (proj1 (proj2 (missing_key _ "c" Hkey))).
Defined.

(** [set] then [get]: the key set is read back at the time of the [set]
    when ttl is 0 or the 64-bit sum of the time and ttl does not
    overflow, and the answer of [get] for every other key, at every
    time, is what it was before the [set]. *)
Theorem set_then_get
    (self : KVStorage.t) (key value : string) (ttl clk : Z) :
  consistent self → is_uint32 ttl →
  ttl = 0 ∨ to_uint64 clk + ttl < 2 ^ 64 →
  (KVStorage.get (KVStorage.set self key value ttl clk) key clk).1
  = Some value
  ∧ ∀ k clk', k ≠ key →
      (KVStorage.get (KVStorage.set self key value ttl clk) k clk').1
      = (KVStorage.get self k clk').1.
Proof.
  intros Hc Httl Hfit. split.
  - destruct (decide (ttl = 0)) as [->|Hne].
    + by apply immortal_get, immortal_set_zero.
    + destruct Hfit as [?|Hfit]; [done|].
      rewrite get_after_set, getDeathTime_nonzero by done.
      pose proof (to_uint64_range clk) as [? ?]. destruct Httl as [? ?].
      rewrite Z.mod_small by lia.
      by rewrite (proj2 (Z.ltb_lt _ _)) by lia.
  - intros k clk' Hne. by apply get_set_ne.
Qed.

Lemma set_then_get_witness :
  (KVStorage.get (KVStorage.set KVStorage.empty "a" "1" 5 7) "a" 7).1
  = Some "1"%string.
Proof.
  refine (proj1 (set_then_get KVStorage.empty "a" "1" 5 7 _ _ _)).
  - apply consistent_empty.
  - unfold is_uint32. lia.
  - right. by vm_compute.
Defined.

(** [remove] then [get]: the key removed is not read back at any time,
    and the answer of [get] for every other key is what it was. *)
Theorem remove_then_get (self : KVStorage.t) (key : string) :
  consistent self →
  (∀ clk, (KVStorage.get (KVStorage.remove self key).2 key clk).1 = None)
  ∧ ∀ k clk, k ≠ key →
      (KVStorage.get (KVStorage.remove self key).2 k clk).1
      = (KVStorage.get self k clk).1.
Proof.
  intros Hc. split.
  - intros clk. apply absent_get, remove_lookup.
  - intros k clk Hne. by apply get_remove_ne.
Qed.

Lemma remove_then_get_witness :
  let self := KVStorage.KVStorage [("a", "1", 0); ("b", "2", 7)]%string (λ _, 1) in
  (KVStorage.get (KVStorage.remove self "a").2 "a" 3).1 = None
  ∧ (KVStorage.get (KVStorage.remove self "a").2 "b" 3).1
    = (KVStorage.get self "b" 3).1.
Proof.
  intros self.
  destruct (remove_then_get self "a" (consistent_KVStorage _ _)) as [Hgone Hkeep].
  split; [apply Hgone | by apply Hkeep].
Defined.

(** ** How calls of set and remove compose *)

Section composition.

Implicit Types self : KVStorage.t.

(** The pairs of the index after [set], in a consistent store: the fresh
    pair when ttl is not 0, and the pairs of the other keys. *)
Lemma elem_of_set_index self key value ttl clk e :
  consistent self →
  e ∈ KVStorage.expiration_set_ (KVStorage.set self key value ttl clk) ↔
  (ttl ≠ 0 ∧ e = timedSetMember.mk key (KVStorage.getDeathTime_ ttl clk))
  ∨ (e ∈ KVStorage.expiration_set_ self ∧ timedSetMember.map_key e ≠ key).
Proof.
  intros Hc. rewrite set_unfold_eq. simpl.
  destruct (Z.eqb_spec ttl 0) as [->|Hne].
  - rewrite (elem_of_without_key _ _ _ Hc). naive_solver.
  - rewrite elem_of_union, elem_of_singleton, (elem_of_without_key _ _ _ Hc).
    naive_solver.
Qed.

Lemma absent_no_pair self key t :
  consistent self → KVStorage.kv_map_ self !! key = None →
  timedSetMember.mk key t ∉ KVStorage.expiration_set_ self.
Proof.
  intros (Hidx & _ & _) Hkey Hin. destruct (Hidx _ Hin) as [v Hv].
  simpl in Hv. congruence.
Qed.

Lemma storage_eq self1 self2 :
  KVStorage.kv_map_ self1 = KVStorage.kv_map_ self2 →
  (∀ e, e ∈ KVStorage.expiration_set_ self1
        ↔ e ∈ KVStorage.expiration_set_ self2) →
  self1 = self2.
Proof.
  destruct self1, self2. simpl. intros -> Hset. f_equal. by apply set_eq.
Qed.

Lemma set_set_commute self k1 v1 ttl1 clk1 k2 v2 ttl2 clk2 :
  consistent self → k1 ≠ k2 →
  KVStorage.set (KVStorage.set self k1 v1 ttl1 clk1) k2 v2 ttl2 clk2
  = KVStorage.set (KVStorage.set self k2 v2 ttl2 clk2) k1 v1 ttl1 clk1.
Proof.
  intros Hc Hne.
  pose proof (consistent_set self k1 v1 ttl1 clk1 Hc) as Hc1.
  pose proof (consistent_set self k2 v2 ttl2 clk2 Hc) as Hc2.
  apply storage_eq.
  - rewrite !set_unfold_eq. simpl. by apply insert_insert_ne.
  - intros e. rewrite !elem_of_set_index by done.
    destruct e as [k t]. simpl. naive_solver.
Qed.

(** With a clock that stands still the loop of the constructor is a
    fold of [set] at that one time. *)
Lemma foldl_set_standing_clock clk (entries : list (string * string * Z))
    (i : nat) self :
  (foldl (λ '(s, i) '(key, value, ttl),
            (KVStorage.set s key value ttl ((λ _ : nat, clk) i), S i))
         (self, i) entries).1
  = foldl (λ s '(key, value, ttl), KVStorage.set s key value ttl clk)
          self entries.
Proof.
  revert self i.
  induction entries as [|[[key value] ttl] entries IH]; intros self i; [done|].
  simpl. apply IH.
Qed.

Lemma foldl_set_Permutation clk (entries1 entries2 : list (string * string * Z)) :
  entries1 ≡ₚ entries2 →
  NoDup (entry_key <$> entries1) →
  ∀ self, consistent self →
    foldl (λ s '(key, value, ttl), KVStorage.set s key value ttl clk)
          self entries1
    = foldl (λ s '(key, value, ttl), KVStorage.set s key value ttl clk)
            self entries2.
Proof.
  induction 1 as [|[[k v] ttl] l1 l2 Hperm IH
                  |[[k1 v1] ttl1] [[k2 v2] ttl2] l|l1 l2 l3 H12 IH12 H23 IH23];
    intros Hnd self Hc.
  - done.
  - simpl. rewrite fmap_cons in Hnd. apply NoDup_cons in Hnd as [_ Hnd].
    apply IH; [done|]. by apply consistent_set.
  - simpl. rewrite (set_set_commute self k2 v2 ttl2 clk k1 v1 ttl1 clk); [done..|].
    rewrite !fmap_cons in Hnd. apply NoDup_cons in Hnd as [Hnotin _].
    intros ->. apply Hnotin. unfold entry_key at 1 2. simpl. left.
  - rewrite IH12 by done. apply IH23; [|done]. by rewrite <-H12.
Qed.

End composition.

(** [set] of a key that is not in the store, then [remove] of it: the
    [remove] returns true and the store is what it was before the
    [set]. *)
Theorem set_then_remove_restores
    (self : KVStorage.t) (key value : string) (ttl clk : Z) :
  consistent self → KVStorage.kv_map_ self !! key = None →
  KVStorage.remove (KVStorage.set self key value ttl clk) key = (true, self).
Proof.
  intros Hc Hkey. rewrite remove_unfold_eq, set_lookup. f_equal.
  apply storage_eq.
  - cbn [KVStorage.kv_map_]. rewrite set_unfold_eq.
    cbn [KVStorage.kv_map_]. by apply delete_insert_id.
  - intros e. cbn [KVStorage.expiration_set_].
    rewrite (elem_of_without_key _ _ _ (consistent_set _ _ _ _ _ Hc)).
    rewrite elem_of_set_index by done. split; [naive_solver|].
    intros He. split; [|intros <-]; [right; split; [done|intros <-]|];
      destruct e; by eapply absent_no_pair.
Qed.

Lemma set_then_remove_restores_witness :
  let self := KVStorage.KVStorage [("a", "1", 0); ("b", "2", 7)]%string (λ _, 1) in
  KVStorage.remove (KVStorage.set self "c" "3" 4 2) "c" = (true, self).
Proof.
  intros self. apply set_then_remove_restores.
  - apply consistent_KVStorage.
  - by vm_compute.
Defined.

(** Two [set]s of one key, one after the other: the store is the one the
    second [set] alone gives; nothing of the first one is left. *)
Theorem last_set_wins
    (self : KVStorage.t) (key v1 v2 : string) (ttl1 clk1 ttl2 clk2 : Z) :
  consistent self →
  KVStorage.set (KVStorage.set self key v1 ttl1 clk1) key v2 ttl2 clk2
  = KVStorage.set self key v2 ttl2 clk2.
Proof.
  intros Hc.
  pose proof (consistent_set self key v1 ttl1 clk1 Hc) as Hc1.
  apply storage_eq.
  - rewrite !set_unfold_eq. simpl. apply insert_insert_eq.
  - intros e. rewrite !elem_of_set_index by done. naive_solver.
Qed.

Lemma last_set_wins_witness :
  KVStorage.set (KVStorage.set KVStorage.empty "a" "1" 5 0) "a" "2" 0 3
  = KVStorage.set KVStorage.empty "a" "2" 0 3.
Proof. apply last_set_wins, consistent_empty. Defined.

(** [set]s of different keys commute, whatever the clock reads at
    each, so the constructor, under a clock that stands still while it
    runs, gives one and the same store for every order of an input whose
    keys are all different. *)
Theorem constructor_order_irrelevant :
  (∀ self k1 v1 ttl1 clk1 k2 v2 ttl2 clk2,
     consistent self → k1 ≠ k2 →
     KVStorage.set (KVStorage.set self k1 v1 ttl1 clk1) k2 v2 ttl2 clk2
     = KVStorage.set (KVStorage.set self k2 v2 ttl2 clk2) k1 v1 ttl1 clk1)
  ∧ (∀ (entries1 entries2 : list (string * string * Z)) clk,
       entries1 ≡ₚ entries2 →
       NoDup (entry_key <$> entries1) →
       KVStorage.KVStorage entries1 (λ _, clk)
       = KVStorage.KVStorage entries2 (λ _, clk)).
Proof.
  split.
  - intros. by apply set_set_commute.
  - intros entries1 entries2 clk Hperm Hnd. unfold KVStorage.KVStorage.
    rewrite !foldl_set_standing_clock.
    apply foldl_set_Permutation; [done..|apply consistent_empty].
Qed.

Lemma constructor_order_irrelevant_witness :
  KVStorage.KVStorage [("c", "3", 1); ("a", "1", 0); ("b", "2", 7)]%string (λ _, 4)
  = KVStorage.KVStorage [("a", "1", 0); ("b", "2", 7); ("c", "3", 1)]%string (λ _, 4).
Proof.
  refine (proj2 constructor_order_irrelevant _ _ 4 _ _).
  - apply (Permutation_cons_append [("a", "1", 0); ("b", "2", 7)]%string).
  - apply (bool_decide_unpack _). by vm_compute.
Defined.

(** ** Expiry over time *)

(** Availability only shrinks as the clock grows: a key [get] returns at
    some time is returned, with the same value, at every earlier time,
    and a key [get] does not return stays unreturned at every later
    time, as long as the store is not written. *)
Theorem availability_is_monotone
    (self : KVStorage.t) (key : string) (t t' : Z) :
  to_uint64 t <= to_uint64 t' →
  (∀ v, (KVStorage.get self key t').1 = Some v →
        (KVStorage.get self key t).1 = Some v)
  ∧ ((KVStorage.get self key t).1 = None →
     (KVStorage.get self key t').1 = None).
Proof.
  intros Hle.
  assert (∀ v, (KVStorage.get self key t').1 = Some v →
               (KVStorage.get self key t).1 = Some v) as Hearlier.
  { intros v. rewrite !get_Some_iff.
    intros (member & Hm & Hv & [Hlt|Hout]); exists member;
      (split_and!; [done..|]); [left; lia | by right]. }
  split; [done|]. intros Hnone.
  destruct (KVStorage.get self key t').1 as [v|]; [|done].
  specialize (Hearlier v eq_refl). congruence.
Qed.

Lemma availability_is_monotone_witness :
  let self := KVStorage.set KVStorage.empty "a" "1" 5 0 in
  (KVStorage.get self "a" 9).1 = None.
Proof.
  intros self.
  refine (proj2 (availability_is_monotone self "a" 5 9 _) _); by vm_compute.
Defined.

(** ** removeOneExpiredEntry and the reads *)

Section eviction_and_reads.

Implicit Types self : KVStorage.t.

(** In a consistent store with nothing to evict, every stored key is
    returned by [get]. *)
Lemma nothing_due_all_available self clk k member :
  consistent self →
  (KVStorage.removeOneExpiredEntry self clk).1 = None →
  KVStorage.kv_map_ self !! k = Some member →
  (KVStorage.get self k clk).1 = Some (timedKVMember.value member).
Proof.
  intros Hc Hnone Hk. apply get_Some_iff. exists member.
  split_and!; [done..|].
  destruct (decide (timedSetMember.mk k (timedKVMember.death_time member)
                      ∈ KVStorage.expiration_set_ self)) as [Hin|?];
    [left|by right].
  apply removeOneExpiredEntry_absent in Hnone as [Hempty|(first & Hb & Hlt)].
  - apply set_begin_None in Hempty. rewrite Hempty in Hin.
    by apply not_elem_of_empty in Hin.
  - apply set_begin_Some in Hb as [_ Hmin].
    apply Hmin, not_after_comparator in Hin. simpl in Hin. lia.
Qed.

(** The key of a pair that is due is not returned by [get]. *)
Lemma due_not_available self clk first :
  consistent self →
  first ∈ KVStorage.expiration_set_ self →
  timedSetMember.death_time first <= to_uint64 clk →
  (KVStorage.get self (timedSetMember.map_key first) clk).1 = None.
Proof.
  intros (Hidx & _ & _) Hin Hdue. apply get_None_iff. intros m Hm.
  destruct (Hidx _ Hin) as [v Hv]. rewrite Hv in Hm. simplify_eq/=.
  split; [done|]. by destruct first.
Qed.

Lemma get_after_eviction self clk k :
  consistent self →
  (KVStorage.get (KVStorage.removeOneExpiredEntry self clk).2 k clk).1
  = (KVStorage.get self k clk).1.
Proof.
  intros Hc.
  destruct (removeOneExpiredEntry_state self clk Hc)
    as [->|(first & Hin & Hdue & ->)]; [done|].
  destruct (decide (k = timedSetMember.map_key first)) as [->|Hne].
  - rewrite (due_not_available _ _ _ Hc Hin Hdue).
    apply absent_get, remove_lookup.
  - by apply get_remove_ne.
Qed.

Lemma filter_ext_elem {A} (P Q : A → Prop)
    `{∀ x, Decision (P x), ∀ x, Decision (Q x)} (l : list A) :
  (∀ x, x ∈ l → (P x ↔ Q x)) → filter P l = filter Q l.
Proof.
  induction l as [|x l IH]; intros Hext; [done|].
  assert (filter P l = filter Q l) as IHl.
  { apply IH. intros y Hy. apply Hext. by right. }
  destruct (decide (P x)) as [HP|HP].
  - rewrite !filter_cons_True, IHl; [done| |done]. apply Hext; [left|done].
  - rewrite !filter_cons_False, IHl; [done| |done].
    intros HQ. apply HP, Hext; [left|done].
Qed.

(** The iteration over the map after [erase]: the same sequence without
    the entry of the key erased. *)
Lemma map_in_order_delete (m : gmap string timedKVMember.t) key :
  map_in_order (delete key m)
  = filter (λ it, it.1 ≠ key) (map_in_order m).
Proof.
  apply (StronglySorted_unique_strong key_lt).
  - intros x1 x2 _ _ H12 H21. unfold key_lt in *.
    apply ltb_true_not_le in H21. destruct H21. by apply ltb_true_le.
  - apply map_in_order_sorted.
  - eapply StronglySorted_sublist; [apply sublist_filter|].
    apply map_in_order_sorted.
  - apply NoDup_Permutation.
    + rewrite map_in_order_perm. apply NoDup_map_to_list.
    + apply NoDup_filter. rewrite map_in_order_perm. apply NoDup_map_to_list.
    + intros [k v]. rewrite list_elem_of_filter, !elem_of_map_in_order.
      rewrite lookup_delete_Some. simpl. naive_solver.
Qed.

Lemma getManySorted_after_eviction self clk start count :
  consistent self → 0 <= count →
  (KVStorage.getManySorted
     (KVStorage.removeOneExpiredEntry self clk).2 start count clk).1
  = (KVStorage.getManySorted self start count clk).1.
Proof.
  intros Hc Hcount.
  destruct (removeOneExpiredEntry_state self clk Hc)
    as [->|(first & Hin & Hdue & ->)]; [done|].
  rewrite !getManySorted_eq by done. do 2 f_equal.
  rewrite remove_unfold_eq.
  destruct Hc as (Hidx & _ & _). destruct (Hidx _ Hin) as [v Hv].
  rewrite Hv. cbn [snd KVStorage.kv_map_].
  rewrite map_in_order_delete, list_filter_filter.
  apply filter_ext_elem. intros [k member] Hk. simpl.
  split; [naive_solver|]. intros Hmatch. split; [done|]. intros ->.
  apply elem_of_map_in_order in Hk. rewrite Hv in Hk. simplify_eq.
  apply scan_match_true in Hmatch as [Hlive _]. simpl in Hlive. lia.
Qed.

Lemma drain_reads self clk n :
  consistent self →
  consistent (drain n self clk).2
  ∧ (∀ k, (KVStorage.get (drain n self clk).2 k clk).1
          = (KVStorage.get self k clk).1)
  ∧ (∀ start count, 0 <= count →
       (KVStorage.getManySorted (drain n self clk).2 start count clk).1
       = (KVStorage.getManySorted self start count clk).1).
Proof.
  revert self. induction n as [|n IH]; intros self Hc; [done|].
  pose proof (consistent_removeOneExpiredEntry self clk Hc) as Hc1.
  pose proof (get_after_eviction self clk) as Hget.
  pose proof (getManySorted_after_eviction self clk) as Hscan.
  simpl.
  destruct (KVStorage.removeOneExpiredEntry self clk) as [[entry|] self1];
    simpl in Hc1, Hget, Hscan.
  - destruct (IH self1 Hc1) as (Hc2 & Hget2 & Hscan2).
    destruct (drain n self1 clk) as [entries self2]. simpl in *.
    split_and!; [done| |].
    + intros k. by rewrite Hget2, Hget.
    + intros start count Hcount. by rewrite Hscan2, Hscan.
  - simpl. split_and!; [done|by intros; apply Hget|by intros; apply Hscan].
Qed.

End eviction_and_reads.

(** [removeOneExpiredEntry] returns nothing exactly when every key of
    the map is returned by [get] at that time: it finds an entry to
    evict as long as one stored entry is hidden from [get]. *)
Theorem nothing_to_evict_iff_all_available (self : KVStorage.t) (clk : Z) :
  consistent self →
  (KVStorage.removeOneExpiredEntry self clk).1 = None ↔
  ∀ k member, KVStorage.kv_map_ self !! k = Some member →
    (KVStorage.get self k clk).1 = Some (timedKVMember.value member).
Proof.
  intros Hc. split.
  - intros Hnone k member. by apply nothing_due_all_available.
  - intros Hall. apply removeOneExpiredEntry_absent.
    destruct (set_begin (KVStorage.expiration_set_ self)) as [first|] eqn:Hb;
      [right|by left].
    exists first. split; [done|].
    destruct (Z.lt_ge_cases (to_uint64 clk) (timedSetMember.death_time first))
      as [?|Hdue]; [done|exfalso].
    apply set_begin_Some in Hb as [Hin _].
    pose proof (due_not_available _ _ _ Hc Hin Hdue) as Hnone.
    destruct Hc as (Hidx & _ & _). destruct (Hidx _ Hin) as [v Hv].
    rewrite (Hall _ _ Hv) in Hnone. done.
Qed.

Lemma nothing_to_evict_iff_all_available_witness :
  let self := KVStorage.KVStorage [("a", "1", 0); ("b", "2", 7)]%string (λ _, 1) in
  (KVStorage.get self "b" 6).1 = Some "2"%string.
Proof.
  intros self.
  refine (proj1 (nothing_to_evict_iff_all_available self 6 _) _
            "b"%string (timedKVMember.mk "2" 8) _).
  - apply consistent_KVStorage.
  - by vm_compute.
  - by vm_compute.
Defined.

(** A call of [removeOneExpiredEntry] cannot be seen through the reads
    made at the same time: [get] of every key and [getManySorted] from
    every key return after the call what they returned before it. *)
Theorem eviction_is_invisible_to_reads (self : KVStorage.t) (clk : Z) :
  consistent self →
  let self' := (KVStorage.removeOneExpiredEntry self clk).2 in
  (∀ k, (KVStorage.get self' k clk).1 = (KVStorage.get self k clk).1)
  ∧ (∀ start count, 0 <= count →
       (KVStorage.getManySorted self' start count clk).1
       = (KVStorage.getManySorted self start count clk).1).
Proof.
  intros Hc self'. split.
  - intros k. by apply get_after_eviction.
  - intros start count Hcount. by apply getManySorted_after_eviction.
Qed.

Lemma eviction_is_invisible_to_reads_witness :
  let self := KVStorage.KVStorage [("a", "1", 2); ("b", "2", 7)]%string (λ _, 0) in
  (KVStorage.removeOneExpiredEntry self 5).1 = Some ("a", "1")%string
  ∧ (KVStorage.getManySorted
       (KVStorage.removeOneExpiredEntry self 5).2 "" 9 5).1
    = (KVStorage.getManySorted self "" 9 5).1.
Proof.
  intros self. split; [by vm_compute|].
  refine (proj2 (eviction_is_invisible_to_reads self 5 _) ""%string 9 _).
  - apply consistent_KVStorage.
  - lia.
Defined.

(** Calling [removeOneExpiredEntry] until it returns nothing leaves a
    store in which every stored key is returned by [get]; no key that
    [get] returned before the calls is lost, and the reads at that time
    return what they returned before. *)
Theorem drain_reclaims_only_hidden_entries
    (self : KVStorage.t) (clk : Z) (n : nat) :
  consistent self →
  (length (filter (λ e, (timedSetMember.death_time e <= to_uint64 clk)%Z)
                  (set_in_order (KVStorage.expiration_set_ self))) ≤ n)%nat →
  let self' := (drain n self clk).2 in
  (∀ k member, KVStorage.kv_map_ self' !! k = Some member →
     (KVStorage.get self' k clk).1 = Some (timedKVMember.value member))
  ∧ (∀ k, (KVStorage.get self' k clk).1 = (KVStorage.get self k clk).1)
  ∧ (∀ start count, 0 <= count →
       (KVStorage.getManySorted self' start count clk).1
       = (KVStorage.getManySorted self start count clk).1).
Proof.
  intros Hc Hn self'.
  destruct (drain_reads self clk n Hc) as (Hc' & Hget & Hscan).
  destruct (drain_in_order clk _ self n Hc eq_refl Hn) as (_ & Hnone & _).
  split_and!; [|done..].
  intros k member Hk. by apply nothing_due_all_available.
Qed.

Lemma drain_reclaims_only_hidden_entries_witness :
  let self := KVStorage.KVStorage
                [("a", "1", 2); ("b", "2", 7); ("c", "3", 1)]%string (λ _, 0) in
  (KVStorage.get (drain 2 self 5).2 "b" 5).1 = Some "2"%string
  ∧ KVStorage.kv_map_ (drain 2 self 5).2 !! "a"%string = None.
Proof.
  intros self. split; [|by vm_compute].
  refine (proj1 (drain_reclaims_only_hidden_entries self 5 2 _ _)
            "b"%string (timedKVMember.mk "2" 7) _).
  - apply consistent_KVStorage.
  - vm_compute. lia.
  - by vm_compute.
Defined.

(** ** getManySorted and get *)

(** Every entry [getManySorted] returns is returned by [get] at the same
    time.  With a count that reaches the size of the map, and at any
    time but the last value of the clock, it returns exactly the entries
    from the start key on that [get] returns. *)
Theorem getManySorted_lists_what_get_returns
    (self : KVStorage.t) (start : string) (count clk : Z) :
  0 <= count →
  (∀ k v, (k, v) ∈ (KVStorage.getManySorted self start count clk).1 →
          (KVStorage.get self k clk).1 = Some v ∧ String.le start k)
  ∧ (consistent self → to_uint64 clk ≠ maxTime_ →
     Z.of_nat (size (KVStorage.kv_map_ self)) <= count →
     ∀ k v, (KVStorage.get self k clk).1 = Some v → String.le start k →
            (k, v) ∈ (KVStorage.getManySorted self start count clk).1).
Proof.
  intros Hcount. split.
  - intros k v Hin.
    apply elem_of_getManySorted in Hin as (member & Hm & Hv & Hlive & Hle);
      [|done].
    split; [|done]. apply get_Some_iff. eauto 10.
  - intros (_ & Hfin & _) Hclk Hsize k v Hget Hle.
    apply get_Some_iff in Hget as (member & Hm & <- & Havail).
    assert (to_uint64 clk < timedKVMember.death_time member) as Hlive.
    { destruct Havail as [?|Hout]; [done|].
      destruct (decide (timedKVMember.death_time member = maxTime_)) as [->|Hne].
      - pose proof (to_uint64_range clk) as [_ Hhi].
        unfold maxTime_ in *. lia.
      - destruct Hout. by apply Hfin. }
    rewrite getManySorted_eq by done.
    rewrite take_ge.
    + apply list_elem_of_fmap. exists (k, member). split; [done|].
      apply list_elem_of_filter. split.
      * by apply scan_match_true.
      * by apply elem_of_map_in_order.
    + etrans; [apply length_filter|].
      rewrite map_in_order_perm, length_map_to_list. lia.
Qed.

Lemma getManySorted_lists_what_get_returns_witness :
  let self := KVStorage.KVStorage
                [("a", "1", 2); ("b", "2", 0); ("d", "4", 3)]%string (λ _, 0) in
  (KVStorage.get self "d" 2).1 = Some "4"%string
  ∧ ("d", "4")%string ∈ (KVStorage.getManySorted self "b" 3 2).1.
Proof.
  intros self.
  assert ((KVStorage.get self "d" 2).1 = Some "4"%string) as Hget
    by by vm_compute.
  split; [done|].
  refine (proj2 (getManySorted_lists_what_get_returns self "b" 3 2 _)
            _ _ _ "d"%string "4"%string Hget _).
  - lia.
  - apply consistent_KVStorage.
  - by vm_compute.
  - by vm_compute.
  - by vm_compute.
Defined.

(** At the last value of the clock the two reads part: a key set with
    ttl 0 is returned by [get], and no [getManySorted] returns it,
    because the loop compares the death time with the time and does not
    look at the expiration set. *)
Theorem last_instant_scan_misses_ttl_zero
    (self : KVStorage.t) (key value : string) (clk0 clk : Z) :
  consistent self → to_uint64 clk = maxTime_ →
  let self' := KVStorage.set self key value 0 clk0 in
  (KVStorage.get self' key clk).1 = Some value
  ∧ ∀ start count v, 0 <= count →
      (key, v) ∉ (KVStorage.getManySorted self' start count clk).1.
Proof.
  intros Hc Hclk self'. split.
  - by apply immortal_get, immortal_set_zero.
  - intros start count v Hcount Hin.
    apply elem_of_getManySorted in Hin as (member & Hm & _ & Hlive & _);
      [|done].
    subst self'. rewrite set_lookup in Hm. simplify_eq/=.
    unfold KVStorage.getDeathTime_ in Hlive. simpl in Hlive. lia.
Qed.

Lemma last_instant_scan_misses_ttl_zero_witness :
  let self := KVStorage.set KVStorage.empty "a" "1" 0 0 in
  (KVStorage.get self "a" (2 ^ 64 - 1)).1 = Some "1"%string
  ∧ (KVStorage.getManySorted self "" 5 (2 ^ 64 - 1)).1 = [].
Proof.
  intros self. split; [|by vm_compute].
  refine (proj1 (last_instant_scan_misses_ttl_zero
                   KVStorage.empty "a" "1" 0 (2 ^ 64 - 1) _ _)).
  - apply consistent_empty.
  - by vm_compute.
Defined.

(** The result for a smaller count is the beginning of the result for
    a larger one: [count] only cuts the sequence, it does not change
    which entries come first. *)
Theorem getManySorted_count_is_a_cut
    (self : KVStorage.t) (start : string) (n m clk : Z) :
  0 <= n <= m →
  (KVStorage.getManySorted self start n clk).1
  = take (Z.to_nat n) (KVStorage.getManySorted self start m clk).1.
Proof.
  intros [Hn Hm]. rewrite !getManySorted_eq by lia.
  rewrite <-fmap_take, take_take. do 2 f_equal. lia.
Qed.

Lemma getManySorted_count_is_a_cut_witness :
  let self := KVStorage.KVStorage
                [("a", "1", 0); ("b", "2", 0); ("d", "4", 0)]%string (λ _, 0) in
  (KVStorage.getManySorted self "a" 2 0).1
  = take 2 (KVStorage.getManySorted self "a" 3 0).1.
Proof.
  intros self.
  apply (getManySorted_count_is_a_cut self "a" 2 3 0). lia.
Defined.

(** ** The size of the expiration set *)

(** In a consistent store the expiration set is never larger than the
    map: it holds at most one pair per stored key. *)
Theorem index_no_larger_than_map (self : KVStorage.t) :
  consistent self →
  (size (KVStorage.expiration_set_ self) ≤ size (KVStorage.kv_map_ self))%nat.
Proof.
  intros (Hidx & _ & HI2).
  rewrite <-(size_dom (D := gset string)).
  unfold size at 1 2, set_size. simpl.
  rewrite <-(length_fmap timedSetMember.map_key).
  apply submseteq_length, NoDup_submseteq.
  - apply NoDup_fmap_2_strong; [|apply NoDup_elements].
    intros x y Hx%elem_of_elements Hy%elem_of_elements. by apply HI2.
  - intros k (e & -> & He%elem_of_elements)%list_elem_of_fmap.
    apply elem_of_elements, elem_of_dom. destruct (Hidx _ He) as [v Hv]. eauto.
Qed.

Lemma index_no_larger_than_map_witness :
  let self := KVStorage.KVStorage [("a", "1", 0); ("b", "2", 7)]%string (λ _, 1) in
  (size (KVStorage.expiration_set_ self) ≤ size (KVStorage.kv_map_ self))%nat.
Proof. intros self. apply index_no_larger_than_map, consistent_KVStorage. Defined.

(** ** The store under the fake clock *)

(** With the fake clock of the tests, a key set with a ttl other than 0
    is expired once the clock has been advanced by that ttl, also when
    the 64-bit addition wraps, since the store and the clock add in the
    same way: [get] does not return it, and [removeOneExpiredEntry] has
    an entry to evict.  After a shorter advance, and without overflow,
    [get] still returns it. *)
Theorem fake_clock_advance_expires
    (self : KVStorage.t) (key value : string) (ttl : Z)
    (tm : FakeTimeManager.t) :
  ttl ≠ 0 → is_uint32 ttl →
  let self' := KVStorage.set self key value ttl (FakeClock.call tm) in
  let later := FakeClock.call (FakeTimeManager.advance tm ttl) in
  (KVStorage.get self' key later).1 = None
  ∧ (consistent self → (KVStorage.removeOneExpiredEntry self' later).1 ≠ None)
  ∧ (∀ seconds,
       0 <= seconds < ttl →
       is_uint64 (FakeTimeManager.time tm) →
       FakeTimeManager.time tm + ttl < 2 ^ 64 →
       (KVStorage.get self' key
          (FakeClock.call (FakeTimeManager.advance tm seconds))).1
       = Some value).
Proof.
  intros Hne Httl self' later.
  assert (to_uint64 later = KVStorage.getDeathTime_ ttl (FakeClock.call tm))
    as Hlater.
  { rewrite getDeathTime_nonzero by done.
    subst later. unfold FakeClock.call, FakeTimeManager.get,
      FakeTimeManager.advance, to_uint64. simpl.
    rewrite Z.mod_mod by lia. by rewrite Z.add_mod_idemp_l by lia. }
  assert ((KVStorage.get self' key later).1 = None) as Hnone.
  { subst self'. rewrite get_after_set by done.
    by rewrite Hlater, Z.ltb_irrefl. }
  split_and!; [done| |].
  - intros Hc Habsent.
    assert (consistent self') as Hc' by by apply consistent_set.
    rewrite (nothing_due_all_available self' later key _ Hc' Habsent
               (set_lookup _ _ _ _ _)) in Hnone.
    done.
  - intros seconds [Hlo Hhi] [Htlo Hthi] Hfit.
    subst self'. rewrite get_after_set by done.
    rewrite getDeathTime_no_overflow by done.
    unfold FakeClock.call, FakeTimeManager.get, FakeTimeManager.advance,
      to_uint64. simpl.
    rewrite Z.mod_mod by lia. rewrite Z.mod_small by lia.
    by rewrite (proj2 (Z.ltb_lt _ _)) by lia.
Qed.

Lemma fake_clock_advance_expires_witness :
  let tm := FakeTimeManager.set FakeTimeManager.initial (2 ^ 64 - 3) in
  let self := KVStorage.KVStorage [("a", "1", 5)]%string (λ _, FakeClock.call tm) in
  (KVStorage.get self "a" (FakeClock.call (FakeTimeManager.advance tm 5))).1
  = None.
Proof.
  intros tm self.
  refine (proj1 (fake_clock_advance_expires
                   KVStorage.empty "a" "1" 5 tm _ _)).
  - lia.
  - unfold is_uint32. lia.
Defined.
